(** * Kinetic Sculpture (multiple_lights.cpp): animation, clock and camera

    A shallow embedding of the per-frame animation code of
    [src/multiple_lights.cpp]: the camera, the pausable animation clock,
    the orbiting point lights and the 10x10 sculpture grid.

    Numbers.  The program computes in single-precision [float].  This
    development follows the usual idealisation and reads every [float] as a
    real number: [+], [-], [*] are the field operations of [R], [sinf],
    [cosf], [sqrtf] are [sin], [cos], [sqrt], a literal such as [2.2f] is the
    decimal [2.2], and a conversion int -> float is [IZR].  Rounding, NaN and
    infinities are outside the model; every statement below is a statement
    about the formulas the code evaluates, in exact arithmetic. *)

From Stdlib Require Import Reals Lra Lia List ZArith Bool.
Import ListNotations.

Open Scope R_scope.

(** ** The parts of GLM the program calls

    GLM is an external header library; the definitions follow its generic
    implementations ([glm/detail/func_geometric.inl],
    [glm/ext/matrix_transform.inl], [glm/detail/func_common.inl]).
    Matrices are column-major: [mcol3] is the translation column. *)
Module glm.

Record vec3 : Type := mkvec3 { vx : R; vy : R; vz : R }.

Record vec4 : Type := mkvec4 { qx : R; qy : R; qz : R; qw : R }.

Record mat4 : Type := mkmat4 { mcol0 : vec4; mcol1 : vec4; mcol2 : vec4; mcol3 : vec4 }.

(** [glm::radians]: degrees * pi / 180. *)
Definition radians (degrees : R) : R := degrees * (PI / 180).

(** [glm::two_pi<float>()]. *)
Definition two_pi : R := 2 * PI.

(** [glm::clamp(x, minVal, maxVal)] is [min(max(x, minVal), maxVal)]. *)
Definition clamp (x minVal maxVal : R) : R := Rmin (Rmax x minVal) maxVal.

Definition add3 (a b : vec3) : vec3 :=
  mkvec3 (vx a + vx b) (vy a + vy b) (vz a + vz b).

Definition sub3 (a b : vec3) : vec3 :=
  mkvec3 (vx a - vx b) (vy a - vy b) (vz a - vz b).

Definition scale3 (a : vec3) (k : R) : vec3 :=
  mkvec3 (vx a * k) (vy a * k) (vz a * k).

Definition dot (a b : vec3) : R := vx a * vx b + vy a * vy b + vz a * vz b.

Definition cross (a b : vec3) : vec3 :=
  mkvec3 (vy a * vz b - vy b * vz a)
         (vz a * vx b - vz b * vx a)
         (vx a * vy b - vx b * vy a).

(** [glm::length(v)] is [sqrt(dot(v, v))]. *)
Definition length (v : vec3) : R := sqrt (dot v v).

Definition inversesqrt (x : R) : R := 1 / sqrt x.

(** [glm::normalize(v)] is [v * inversesqrt(dot(v, v))]. *)
Definition normalize (v : vec3) : vec3 := scale3 v (inversesqrt (dot v v)).

Definition add4 (a b : vec4) : vec4 :=
  mkvec4 (qx a + qx b) (qy a + qy b) (qz a + qz b) (qw a + qw b).

Definition scale4 (a : vec4) (k : R) : vec4 :=
  mkvec4 (qx a * k) (qy a * k) (qz a * k) (qw a * k).

(** [glm::mat4(1.f)]. *)
Definition mat4_diag (k : R) : mat4 :=
  mkmat4 (mkvec4 k 0 0 0) (mkvec4 0 k 0 0) (mkvec4 0 0 k 0) (mkvec4 0 0 0 k).

(** [glm::translate(m, v)]: only the last column changes,
    [Result[3] = m[0]*v[0] + m[1]*v[1] + m[2]*v[2] + m[3]]. *)
Definition translate (m : mat4) (v : vec3) : mat4 :=
  mkmat4 (mcol0 m) (mcol1 m) (mcol2 m)
         (add4 (add4 (add4 (scale4 (mcol0 m) (vx v)) (scale4 (mcol1 m) (vy v)))
                     (scale4 (mcol2 m) (vz v)))
               (mcol3 m)).

(** [glm::rotate(m, angle, v)]: Rodrigues' matrix of the normalised axis,
    multiplied into [m] from the right. *)
Definition rotate (m : mat4) (angle : R) (v : vec3) : mat4 :=
  let c := cos angle in
  let s := sin angle in
  let axis := normalize v in
  let temp := scale3 axis (1 - c) in
  let r00 := c + vx temp * vx axis in
  let r01 := vx temp * vy axis + s * vz axis in
  let r02 := vx temp * vz axis - s * vy axis in
  let r10 := vy temp * vx axis - s * vz axis in
  let r11 := c + vy temp * vy axis in
  let r12 := vy temp * vz axis + s * vx axis in
  let r20 := vz temp * vx axis + s * vy axis in
  let r21 := vz temp * vy axis - s * vx axis in
  let r22 := c + vz temp * vz axis in
  mkmat4
    (add4 (add4 (scale4 (mcol0 m) r00) (scale4 (mcol1 m) r01)) (scale4 (mcol2 m) r02))
    (add4 (add4 (scale4 (mcol0 m) r10) (scale4 (mcol1 m) r11)) (scale4 (mcol2 m) r12))
    (add4 (add4 (scale4 (mcol0 m) r20) (scale4 (mcol1 m) r21)) (scale4 (mcol2 m) r22))
    (mcol3 m).

(** [glm::scale(m, v)]: the first three columns are scaled. *)
Definition scale (m : mat4) (v : vec3) : mat4 :=
  mkmat4 (scale4 (mcol0 m) (vx v)) (scale4 (mcol1 m) (vy v))
         (scale4 (mcol2 m) (vz v)) (mcol3 m).

(** Matrix times column vector, [m * v]. *)
Definition mul_vec (m : mat4) (v : vec4) : vec4 :=
  add4 (add4 (add4 (scale4 (mcol0 m) (qx v)) (scale4 (mcol1 m) (qy v)))
             (scale4 (mcol2 m) (qz v)))
       (scale4 (mcol3 m) (qw v)).

(** Matrix product, [a * b]: column [j] of the product is [a * b[j]]. *)
Definition mul (a b : mat4) : mat4 :=
  mkmat4 (mul_vec a (mcol0 b)) (mul_vec a (mcol1 b))
         (mul_vec a (mcol2 b)) (mul_vec a (mcol3 b)).

End glm.

Import glm.

(** ** Camera (struct Camera) *)

Record Camera : Type := mkCamera {
  pos : vec3;
  front : vec3;
  up : vec3;
  yaw : R;
  pitch : R;
  zoom : R
}.

(** The member initialisers of [struct Camera]. *)
Definition cam_init : Camera :=
  mkCamera (mkvec3 0 8 20) (mkvec3 0 0 (-1)) (mkvec3 0 1 0) (-90) 0 45.

Definition set_pos (c : Camera) (p : vec3) : Camera :=
  mkCamera p (front c) (up c) (yaw c) (pitch c) (zoom c).

Definition moveForward (c : Camera) (dt : R) : Camera :=
  set_pos c (add3 (pos c) (scale3 (front c) (5.0 * dt))).

Definition moveBackward (c : Camera) (dt : R) : Camera :=
  set_pos c (sub3 (pos c) (scale3 (front c) (5.0 * dt))).

Definition moveLeft (c : Camera) (dt : R) : Camera :=
  set_pos c (sub3 (pos c) (scale3 (normalize (cross (front c) (up c))) (5.0 * dt))).

Definition moveRight (c : Camera) (dt : R) : Camera :=
  set_pos c (add3 (pos c) (scale3 (normalize (cross (front c) (up c))) (5.0 * dt))).

(** [Camera::look]: yaw and pitch move by 0.1 degree per pixel, the pitch is
    clamped, and [front] is rebuilt from the two angles. *)
Definition look (c : Camera) (dx dy : R) : Camera :=
  let yaw' := yaw c + dx * 0.1 in
  let pitch' := clamp (pitch c + dy * 0.1) (-89.0) 89.0 in
  let front' :=
    normalize (mkvec3 (cos (radians yaw') * cos (radians pitch'))
                      (sin (radians pitch'))
                      (sin (radians yaw') * cos (radians pitch'))) in
  mkCamera (pos c) front' (up c) yaw' pitch' (zoom c).

(** ** Globals *)

(** What [glfwGetKey] returns. *)
Inductive KeyAction : Type := GLFW_RELEASE | GLFW_PRESS.

Definition is_press (k : KeyAction) : bool :=
  match k with GLFW_PRESS => true | GLFW_RELEASE => false end.

Definition is_release (k : KeyAction) : bool :=
  match k with GLFW_RELEASE => true | GLFW_PRESS => false end.

Definition SCR_W : Z := 1280.
Definition SCR_H : Z := 720.

(** The file-scope variables, the function-local [static int prev] of
    [processInput], and the window's close flag. *)
Record Globals : Type := mkGlobals {
  cam : Camera;
  lastX : R;
  lastY : R;
  firstMouse : bool;
  dt : R;
  lastFrame : R;
  paused : bool;
  animTime : R;
  prev : KeyAction;
  windowShouldClose : bool
}.

Definition globals_init : Globals :=
  mkGlobals cam_init (IZR SCR_W / 2) (IZR SCR_H / 2) true 0 0 false 0
            GLFW_RELEASE false.

Definition set_cam (g : Globals) (c : Camera) : Globals :=
  mkGlobals c (lastX g) (lastY g) (firstMouse g) (dt g) (lastFrame g)
            (paused g) (animTime g) (prev g) (windowShouldClose g).

Definition set_mouse (g : Globals) (x y : R) (fm : bool) : Globals :=
  mkGlobals (cam g) x y fm (dt g) (lastFrame g)
            (paused g) (animTime g) (prev g) (windowShouldClose g).

Definition set_clock (g : Globals) (d lf a : R) : Globals :=
  mkGlobals (cam g) (lastX g) (lastY g) (firstMouse g) d lf
            (paused g) a (prev g) (windowShouldClose g).

Definition set_paused (g : Globals) (p : bool) : Globals :=
  mkGlobals (cam g) (lastX g) (lastY g) (firstMouse g) (dt g) (lastFrame g)
            p (animTime g) (prev g) (windowShouldClose g).

Definition set_prev (g : Globals) (k : KeyAction) : Globals :=
  mkGlobals (cam g) (lastX g) (lastY g) (firstMouse g) (dt g) (lastFrame g)
            (paused g) (animTime g) k (windowShouldClose g).

Definition set_windowShouldClose (g : Globals) (b : bool) : Globals :=
  mkGlobals (cam g) (lastX g) (lastY g) (firstMouse g) (dt g) (lastFrame g)
            (paused g) (animTime g) (prev g) b.

(** ** Callbacks *)

(** [mouse_callback]: the first event only records the cursor position
    before the deltas are taken. *)
Definition mouse_callback (g : Globals) (xd yd : R) : Globals :=
  let x := xd in
  let y := yd in
  let g1 := if firstMouse g then set_mouse g x y false else g in
  let g2 := set_cam g1 (look (cam g1) (x - lastX g1) (lastY g1 - y)) in
  set_mouse g2 x y (firstMouse g2).

Definition scroll_callback (g : Globals) (yo : R) : Globals :=
  let c := cam g in
  set_cam g (mkCamera (pos c) (front c) (up c) (yaw c) (pitch c)
                      (clamp (zoom c - yo) 1.0 90.0)).

(** The key states [processInput] samples with [glfwGetKey]. *)
Record Keys : Type := mkKeys {
  KEY_ESCAPE : KeyAction;
  KEY_W : KeyAction;
  KEY_S : KeyAction;
  KEY_A : KeyAction;
  KEY_D : KeyAction;
  KEY_SPACE : KeyAction
}.

Definition processInput (g : Globals) (k : Keys) : Globals :=
  let g := if is_press (KEY_ESCAPE k) then set_windowShouldClose g true else g in
  let g := if is_press (KEY_W k) then set_cam g (moveForward (cam g) (dt g)) else g in
  let g := if is_press (KEY_S k) then set_cam g (moveBackward (cam g) (dt g)) else g in
  let g := if is_press (KEY_A k) then set_cam g (moveLeft (cam g) (dt g)) else g in
  let g := if is_press (KEY_D k) then set_cam g (moveRight (cam g) (dt g)) else g in
  let cur := KEY_SPACE k in
  let g := if is_press cur && is_release (prev g)
           then set_paused g (negb (paused g)) else g in
  set_prev g cur.

(** ** Main: per-frame computations *)

(** Point light config: [OR] orbit radius, [OY] base height, [SP] angular
    speed. *)
Definition OR : list R := [8; 11; 9; 6.5].
Definition OY : list R := [3; 1.5; 5; 2.5].
Definition SP : list R := [0.7; -0.5; 1.1; -0.9].

Definition GRID : Z := 10.
Definition SPACING : R := 2.2.

(** [a[i]] for a C array holding the elements of [a]. *)
Definition at_index (a : list R) (i : Z) : R := nth (Z.to_nat i) a 0.

(** The values [i] takes in [for (int i = 0; i < n; i++)]. *)
Definition int_range (n : Z) : list Z := map Z.of_nat (seq 0 (Z.to_nat n)).

(** The head of the render loop: delta-time bookkeeping, then the clock. *)
Definition tick (g : Globals) (now : R) : Globals :=
  let dt' := now - lastFrame g in
  set_clock g dt' now (if negb (paused g) then animTime g + dt' else animTime g).

(** Body of the point-light loop, for one [i]. *)
Definition ptPos_at (animTime : R) (i : Z) : vec3 :=
  let a := at_index SP i * animTime + IZR i * two_pi / 4 in
  mkvec3 (at_index OR i * cos a)
         (at_index OY i + 1.5 * sin (animTime * 0.7 + IZR i))
         (at_index OR i * sin a).

(** The array [ptPos] after the loop. *)
Definition ptPos (animTime : R) : list vec3 :=
  map (ptPos_at animTime) (int_range 4).

(** The locals of the sculpture loop body. *)
Definition off : R := IZR (GRID - 1) * SPACING * 0.5.

Definition cell_gx (col : Z) : R := IZR col * SPACING - off.

Definition cell_gz (row : Z) : R := IZR row * SPACING - off.

Definition cell_d (row col : Z) : R :=
  sqrt (cell_gx col * cell_gx col + cell_gz row * cell_gz row).

Definition cell_gy (animTime : R) (row col : Z) : R :=
  2.0 * sin (cell_d row col * 0.55 - animTime * 2)
  + 0.8 * sin (cell_gx col * 0.5 + animTime * 1.3)
  + 0.8 * cos (cell_gz row * 0.5 - animTime * 1.1).

Definition cell_spin (animTime : R) (row col : Z) : R :=
  animTime * 50 + cell_d row col * 12.

Definition cell_s (animTime : R) (row col : Z) : R :=
  0.88 + 0.12 * sin (animTime * 3 + cell_d row col).

(** The matrix handed to [setMat4(prog, "model", model)]. *)
Definition cell_model (animTime : R) (row col : Z) : mat4 :=
  let s := cell_s animTime row col in
  let model := mat4_diag 1 in
  let model := translate model
                 (mkvec3 (cell_gx col) (cell_gy animTime row col) (cell_gz row)) in
  let model := rotate model (radians (cell_spin animTime row col)) (mkvec3 0 1 0) in
  let model := scale model (mkvec3 s s s) in
  model.

(** The model matrices the two nested loops upload, in draw order. *)
Definition sculpture_models (animTime : R) : list mat4 :=
  flat_map (fun row => map (fun col => cell_model animTime row col) (int_range GRID))
           (int_range GRID).

(** What one frame hands to the renderer, as far as the animation goes. *)
Record DrawParams : Type := mkDrawParams {
  pointLights : list vec3;
  spotPosition : vec3;
  spotDirection : vec3;
  models : list mat4
}.

Definition draw (g : Globals) : DrawParams :=
  mkDrawParams (ptPos (animTime g)) (pos (cam g)) (front (cam g))
               (sculpture_models (animTime g)).

(** ** Main: the render loop *)

(** Events [glfwPollEvents] delivers to the registered callbacks. *)
Inductive Event : Type :=
| CursorPos (xd yd : R)
| Scroll (xo yo : R).

Definition dispatch (g : Globals) (e : Event) : Globals :=
  match e with
  | CursorPos xd yd => mouse_callback g xd yd
  | Scroll _ yo => scroll_callback g yo
  end.

Definition pollEvents (g : Globals) (evs : list Event) : Globals :=
  fold_left dispatch evs g.

(** What the environment supplies to one iteration: the value of
    [glfwGetTime], the key states, and the events polled at its end. *)
Record Frame : Type := mkFrame {
  now : R;
  keys : Keys;
  events : list Event
}.

(** One iteration of the loop body; drawing reads the state but does not
    change it. *)
Definition frame (g : Globals) (f : Frame) : Globals :=
  pollEvents (processInput (tick g (now f)) (keys f)) (events f).

(** [while (!glfwWindowShouldClose(win)) { ... }] over the frames the
    environment offers. *)
Fixpoint render_loop (g : Globals) (fs : list Frame) : Globals :=
  match fs with
  | [] => g
  | f :: fs' => if windowShouldClose g then g else render_loop (frame g f) fs'
  end.

(** States the program can be in between two of its steps. *)
Inductive reachable : Globals -> Prop :=
| reach_init : reachable globals_init
| reach_tick g t : reachable g -> reachable (tick g t)
| reach_input g k : reachable g -> reachable (processInput g k)
| reach_event g e : reachable g -> reachable (dispatch g e).

(** [glfwGetTime] does not run backwards: each reading is at least the
    previous one, starting from [last]. *)
Fixpoint clock_monotone (last : R) (ts : list R) : Prop :=
  match ts with
  | [] => True
  | t :: ts' => last <= t /\ clock_monotone t ts'
  end.

(** The reading of the last frame of [fs], or [t0] when there is none. *)
Definition last_now (t0 : R) (fs : list Frame) : R :=
  fold_left (fun _ f => now f) fs t0.

Definition space_is (k : KeyAction) (f : Frame) : Prop := KEY_SPACE (keys f) = k.

Definition escape_released (f : Frame) : Prop := KEY_ESCAPE (keys f) = GLFW_RELEASE.

(** Two key samples used in examples: nothing held, and only space held. *)
Definition no_keys : Keys :=
  mkKeys GLFW_RELEASE GLFW_RELEASE GLFW_RELEASE GLFW_RELEASE GLFW_RELEASE GLFW_RELEASE.

Definition space_down : Keys :=
  mkKeys GLFW_RELEASE GLFW_RELEASE GLFW_RELEASE GLFW_RELEASE GLFW_RELEASE GLFW_PRESS.

(** The fields a callback never writes. *)
Definition same_clock (g g' : Globals) : Prop :=
  dt g' = dt g /\ lastFrame g' = lastFrame g /\ paused g' = paused g
  /\ animTime g' = animTime g /\ prev g' = prev g
  /\ windowShouldClose g' = windowShouldClose g.

(** The part of the camera that [Camera::look] rewrites. *)
Definition orientation (c : Camera) : vec3 * R * R := (front c, yaw c, pitch c).

(** What holds of the camera in every reachable state: [front] has length
    one, the pitch is within the clamp bounds, and until the first cursor
    event the orientation is the initial one. *)
Definition camera_invariant (g : Globals) : Prop :=
  length (front (cam g)) = 1
  /\ -89 <= pitch (cam g) <= 89
  /\ (firstMouse g = true -> orientation (cam g) = orientation cam_init).

(** ** The formulas of the specification, as it words them *)
Module Spec.

Definition gridSize : Z := 10.
Definition spacing : R := 2.2.
Definition offset : R := (IZR gridSize - 1) * spacing / 2.

Definition x (col : Z) : R := IZR col * spacing - offset.
Definition z (row : Z) : R := IZR row * spacing - offset.
Definition d (row col : Z) : R := sqrt (Rsqr (x col) + Rsqr (z row)).

Definition y (row col : Z) (t : R) : R :=
  2 * sin (0.55 * d row col - 2 * t)
  + 0.8 * sin (0.5 * x col + 1.3 * t)
  + 0.8 * cos (0.5 * z row - 1.1 * t).

Definition spin (row col : Z) (t : R) : R := 50 * t + 12 * d row col.

Definition cell_scale (row col : Z) (t : R) : R := 0.88 + 0.12 * sin (3 * t + d row col).

Definition radius (i : Z) : R :=
  match i with 0%Z => 8 | 1%Z => 11 | 2%Z => 9 | 3%Z => 6.5 | _ => 0 end.

Definition baseHeight (i : Z) : R :=
  match i with 0%Z => 3 | 1%Z => 1.5 | 2%Z => 5 | 3%Z => 2.5 | _ => 0 end.

Definition speed (i : Z) : R :=
  match i with 0%Z => 0.7 | 1%Z => -0.5 | 2%Z => 1.1 | 3%Z => -0.9 | _ => 0 end.

Definition angle (i : Z) (t : R) : R := speed i * t + IZR i * (2 * PI / 4).

Definition light_position (i : Z) (t : R) : vec3 :=
  mkvec3 (radius i * cos (angle i t))
         (baseHeight i + 1.5 * sin (0.7 * t + IZR i))
         (radius i * sin (angle i t)).

(** The textbook matrices of a translation, a rotation about the Y axis
    by [theta] radians, and a uniform scaling. *)
Definition translation (v : vec3) : mat4 :=
  mkmat4 (mkvec4 1 0 0 0) (mkvec4 0 1 0 0) (mkvec4 0 0 1 0)
         (mkvec4 (vx v) (vy v) (vz v) 1).

Definition rotation_y (theta : R) : mat4 :=
  mkmat4 (mkvec4 (cos theta) 0 (- sin theta) 0)
         (mkvec4 0 1 0 0)
         (mkvec4 (sin theta) 0 (cos theta) 0)
         (mkvec4 0 0 0 1).

Definition scaling (k : R) : mat4 :=
  mkmat4 (mkvec4 k 0 0 0) (mkvec4 0 k 0 0) (mkvec4 0 0 k 0) (mkvec4 0 0 0 1).

Definition degrees_to_radians (deg : R) : R := deg * PI / 180.

End Spec.

(** ** Further parts of the program *)

(** [glm::lookAt] (right-handed, the default build): the rows of the
    rotation part are [s], [u] and [-f]. *)
Definition lookAt (eye center up : vec3) : mat4 :=
  let f := normalize (sub3 center eye) in
  let s := normalize (cross f up) in
  let u := cross s f in
  mkmat4 (mkvec4 (vx s) (vx u) (- vx f) 0)
         (mkvec4 (vy s) (vy u) (- vy f) 0)
         (mkvec4 (vz s) (vz u) (- vz f) 0)
         (mkvec4 (- dot s eye) (- dot u eye) (dot f eye) 1).

(** [Camera::view]. *)
Definition view (c : Camera) : mat4 := lookAt (pos c) (add3 (pos c) (front c)) (up c).

(** The matrix [m] of the light-marker loop, for one [i]; [ptPos[i]] is read
    from the array filled by the point-light loop. *)
Definition marker_model (animTime : R) (i : Z) : mat4 :=
  scale (translate (mat4_diag 1) (nth (Z.to_nat i) (ptPos animTime) (mkvec3 0 0 0)))
        (mkvec3 0.25 0.25 0.25).

Definition marker_models (animTime : R) : list mat4 :=
  map (marker_model animTime) (int_range 4).

(** ** The fragment shader of the lighting pass (FRAG_SRC)

    GLSL built-ins, read in exact arithmetic like the rest: [dot], [length],
    [clamp] and [max] are the functions of the same name above ([max] is
    [Rmax]); the others follow the GLSL specification. *)
Module glsl.

(** [normalize(x)] is [x / length(x)]. *)
Definition normalize (x : vec3) : vec3 :=
  mkvec3 (vx x / length x) (vy x / length x) (vz x / length x).

(** [reflect(I, N)] is [I - 2 * dot(N, I) * N]. *)
Definition reflect (I N : vec3) : vec3 := sub3 I (scale3 N (2 * dot N I)).

(** [pow(x, y)] for [x >= 0]: zero at zero, [exp(y ln x)] above; GLSL
    leaves negative [x] undefined. *)
Definition pow (x y : R) : R := if Rle_dec x 0 then 0 else Rpower x y.

(** Unary minus and the componentwise product of two [vec3]. *)
Definition neg3 (a : vec3) : vec3 := mkvec3 (- vx a) (- vy a) (- vz a).

Definition mul3 (a b : vec3) : vec3 := mkvec3 (vx a * vx b) (vy a * vy b) (vz a * vz b).

End glsl.

Module FRAG_SRC.

Definition NR_POINT_LIGHTS : Z := 4.

Record DirLight : Type := mkDirLight {
  dl_direction : vec3;
  dl_ambient : vec3;
  dl_diffuse : vec3;
  dl_specular : vec3
}.

Record PointLight : Type := mkPointLight {
  pl_position : vec3;
  pl_constant : R;
  pl_linear : R;
  pl_quadratic : R;
  pl_ambient : vec3;
  pl_diffuse : vec3;
  pl_specular : vec3
}.

Record SpotLight : Type := mkSpotLight {
  sl_position : vec3;
  sl_direction : vec3;
  sl_cutOff : R;
  sl_outerCutOff : R;
  sl_constant : R;
  sl_linear : R;
  sl_quadratic : R;
  sl_ambient : vec3;
  sl_diffuse : vec3;
  sl_specular : vec3
}.

(** The uniforms of the program. *)
Record Uniforms : Type := mkUniforms {
  viewPos : vec3;
  dirLight : DirLight;
  pointLights : list PointLight;
  spotLight : SpotLight;
  matDiffuse : vec3;
  matSpecular : vec3;
  matShininess : R
}.

(** An array slot that was never written reads as zeros. *)
Definition no_light : PointLight :=
  mkPointLight (mkvec3 0 0 0) 0 0 0 (mkvec3 0 0 0) (mkvec3 0 0 0) (mkvec3 0 0 0).

Definition CalcDirLight (U : Uniforms) (L : DirLight) (n v : vec3) : vec3 :=
  let d := glsl.normalize (glsl.neg3 (dl_direction L)) in
  let diff := Rmax (dot n d) 0.0 in
  let r := glsl.reflect (glsl.neg3 d) n in
  let spec := glsl.pow (Rmax (dot v r) 0.0) (matShininess U) in
  add3 (add3 (glsl.mul3 (dl_ambient L) (matDiffuse U))
             (glsl.mul3 (scale3 (dl_diffuse L) diff) (matDiffuse U)))
       (glsl.mul3 (scale3 (dl_specular L) spec) (matSpecular U)).

Definition CalcPointLight (U : Uniforms) (L : PointLight) (n fp v : vec3) : vec3 :=
  let d := glsl.normalize (sub3 (pl_position L) fp) in
  let diff := Rmax (dot n d) 0.0 in
  let r := glsl.reflect (glsl.neg3 d) n in
  let spec := glsl.pow (Rmax (dot v r) 0.0) (matShininess U) in
  let dist := length (sub3 (pl_position L) fp) in
  let att := 1.0 / (pl_constant L + pl_linear L * dist + pl_quadratic L * dist * dist) in
  scale3 (add3 (add3 (glsl.mul3 (pl_ambient L) (matDiffuse U))
                     (glsl.mul3 (scale3 (pl_diffuse L) diff) (matDiffuse U)))
               (glsl.mul3 (scale3 (pl_specular L) spec) (matSpecular U)))
         att.

Definition CalcSpotLight (U : Uniforms) (L : SpotLight) (n fp v : vec3) : vec3 :=
  let d := glsl.normalize (sub3 (sl_position L) fp) in
  let diff := Rmax (dot n d) 0.0 in
  let r := glsl.reflect (glsl.neg3 d) n in
  let spec := glsl.pow (Rmax (dot v r) 0.0) (matShininess U) in
  let dist := length (sub3 (sl_position L) fp) in
  let att := 1.0 / (sl_constant L + sl_linear L * dist + sl_quadratic L * dist * dist) in
  let theta := dot d (glsl.normalize (glsl.neg3 (sl_direction L))) in
  let eps := sl_cutOff L - sl_outerCutOff L in
  let inten := clamp ((theta - sl_outerCutOff L) / eps) 0.0 1.0 in
  scale3 (scale3 (add3 (add3 (glsl.mul3 (sl_ambient L) (matDiffuse U))
                             (glsl.mul3 (scale3 (sl_diffuse L) diff) (matDiffuse U)))
                       (glsl.mul3 (scale3 (sl_specular L) spec) (matSpecular U)))
                 att)
         inten.

(** [main]: the inputs are the interpolated [FragPos] and [Normal], the
    output is [FragColor]. *)
Definition main (U : Uniforms) (FragPos Normal : vec3) : vec4 :=
  let n := glsl.normalize Normal in
  let v := glsl.normalize (sub3 (viewPos U) FragPos) in
  let c := CalcDirLight U (dirLight U) n v in
  let c := fold_left
             (fun c i => add3 c (CalcPointLight U (nth (Z.to_nat i) (pointLights U) no_light)
                                                n FragPos v))
             (int_range NR_POINT_LIGHTS) c in
  let c := add3 c (CalcSpotLight U (spotLight U) n FragPos v) in
  mkvec4 (vx c) (vy c) (vz c) 1.0.

End FRAG_SRC.

(** ** Main: the uniforms of the lighting pass *)

(** Point light colours. *)
Definition PC : list vec3 :=
  [mkvec3 1 0.25 0.25; mkvec3 0.25 1 0.25; mkvec3 0.25 0.25 1; mkvec3 1 0.8 0.2].

(** The values [main] uploads to [prog] before drawing the sculpture. *)
Definition lighting_uniforms (g : Globals) : FRAG_SRC.Uniforms :=
  FRAG_SRC.mkUniforms
    (pos (cam g))
    (FRAG_SRC.mkDirLight (mkvec3 (-0.3) (-1) (-0.4)) (mkvec3 0.04 0.04 0.06)
                         (mkvec3 0.2 0.2 0.3) (mkvec3 0.5 0.5 0.5))
    (map (fun i =>
            let colour := nth (Z.to_nat i) PC (mkvec3 0 0 0) in
            FRAG_SRC.mkPointLight
              (nth (Z.to_nat i) (ptPos (animTime g)) (mkvec3 0 0 0))
              1 0.07 0.017 (scale3 colour 0.05) colour colour)
         (int_range 4))
    (FRAG_SRC.mkSpotLight (pos (cam g)) (front (cam g))
                          (cos (radians 12.5)) (cos (radians 17.5))
                          1 0.05 0.012
                          (mkvec3 0 0 0) (mkvec3 1 1 1) (mkvec3 1 1 1))
    (mkvec3 0.2 0.45 0.7) (mkvec3 0.8 0.85 0.9) 96.

(** Two states that agree on everything the camera path depends on: the
    camera, the cursor bookkeeping, the frame clock and the close flag.
    They may differ in [paused], [animTime], [prev] and the stale [dt]. *)
Definition same_controls (g1 g2 : Globals) : Prop :=
  cam g1 = cam g2 /\ lastX g1 = lastX g2 /\ lastY g1 = lastY g2
  /\ firstMouse g1 = firstMouse g2 /\ lastFrame g1 = lastFrame g2
  /\ windowShouldClose g1 = windowShouldClose g2.

(** Componentwise [0 <= v]. *)
Definition nonneg3 (v : vec3) : Prop := 0 <= vx v /\ 0 <= vy v /\ 0 <= vz v.

(** Componentwise [a <= b]. *)
Definition le3 (a b : vec3) : Prop := vx a <= vx b /\ vy a <= vy b /\ vz a <= vz b.

(** The lights of the lighting pass have non-negative colours, and
    attenuation coefficients with a constant term of at least one. *)
Definition point_light_ok (L : FRAG_SRC.PointLight) : Prop :=
  nonneg3 (FRAG_SRC.pl_ambient L) /\ nonneg3 (FRAG_SRC.pl_diffuse L)
  /\ nonneg3 (FRAG_SRC.pl_specular L)
  /\ 1 <= FRAG_SRC.pl_constant L /\ 0 <= FRAG_SRC.pl_linear L
  /\ 0 <= FRAG_SRC.pl_quadratic L.

(** ** Main: projection and mesh *)

(** [glm::perspective] (right-handed, depth in [-1, 1], the default
    build). *)
Definition perspective (fovy aspect zNear zFar : R) : mat4 :=
  let tanHalfFovy := tan (fovy / 2) in
  mkmat4 (mkvec4 (1 / (aspect * tanHalfFovy)) 0 0 0)
         (mkvec4 0 (1 / tanHalfFovy) 0 0)
         (mkvec4 0 0 (- (zFar + zNear) / (zFar - zNear)) (- 1))
         (mkvec4 0 0 (- (2 * zFar * zNear) / (zFar - zNear)) 0).

(** The matrix [proj] of a frame. *)
Definition proj (g : Globals) : mat4 :=
  perspective (radians (zoom (cam g))) (IZR SCR_W / IZR SCR_H) 0.1 120.

(** The cube: pos(3) + normal(3), stride = 6 floats. *)
Definition verts : list R := [
  (* Back *)
  (-0.5); (-0.5); (-0.5); 0; 0; (-1);
  0.5; 0.5; (-0.5); 0; 0; (-1);
  0.5; (-0.5); (-0.5); 0; 0; (-1);
  0.5; 0.5; (-0.5); 0; 0; (-1);
  (-0.5); (-0.5); (-0.5); 0; 0; (-1);
  (-0.5); 0.5; (-0.5); 0; 0; (-1);
  (* Front *)
  (-0.5); (-0.5); 0.5; 0; 0; 1;
  0.5; (-0.5); 0.5; 0; 0; 1;
  0.5; 0.5; 0.5; 0; 0; 1;
  0.5; 0.5; 0.5; 0; 0; 1;
  (-0.5); 0.5; 0.5; 0; 0; 1;
  (-0.5); (-0.5); 0.5; 0; 0; 1;
  (* Left *)
  (-0.5); 0.5; 0.5; (-1); 0; 0;
  (-0.5); 0.5; (-0.5); (-1); 0; 0;
  (-0.5); (-0.5); (-0.5); (-1); 0; 0;
  (-0.5); (-0.5); (-0.5); (-1); 0; 0;
  (-0.5); (-0.5); 0.5; (-1); 0; 0;
  (-0.5); 0.5; 0.5; (-1); 0; 0;
  (* Right *)
  0.5; 0.5; 0.5; 1; 0; 0;
  0.5; (-0.5); (-0.5); 1; 0; 0;
  0.5; 0.5; (-0.5); 1; 0; 0;
  0.5; (-0.5); (-0.5); 1; 0; 0;
  0.5; 0.5; 0.5; 1; 0; 0;
  0.5; (-0.5); 0.5; 1; 0; 0;
  (* Bottom *)
  (-0.5); (-0.5); (-0.5); 0; (-1); 0;
  0.5; (-0.5); (-0.5); 0; (-1); 0;
  0.5; (-0.5); 0.5; 0; (-1); 0;
  0.5; (-0.5); 0.5; 0; (-1); 0;
  (-0.5); (-0.5); 0.5; 0; (-1); 0;
  (-0.5); (-0.5); (-0.5); 0; (-1); 0;
  (* Top *)
  (-0.5); 0.5; (-0.5); 0; 1; 0;
  0.5; 0.5; 0.5; 0; 1; 0;
  0.5; 0.5; (-0.5); 0; 1; 0;
  0.5; 0.5; 0.5; 0; 1; 0;
  (-0.5); 0.5; (-0.5); 0; 1; 0;
  (-0.5); 0.5; 0.5; 0; 1; 0
].

(** What [glVertexAttribPointer(_, 3, GL_FLOAT, GL_FALSE, stride, first)]
    makes of the buffer for vertex [k], with [first] and [stride] counted
    in floats. *)
Definition attrib (first stride k : nat) : vec3 :=
  mkvec3 (nth (first + stride * k) verts 0)
         (nth (first + stride * k + 1) verts 0)
         (nth (first + stride * k + 2) verts 0).

(** Attribute 0 and attribute 1 of [cubeVAO]. *)
Definition aPos (k : nat) : vec3 := attrib 0 6 k.

Definition aNormal (k : nat) : vec3 := attrib 3 6 k.

(** ** Vocabulary for the further properties *)

(** The vector [Camera::look] builds from the two angles, in degrees. *)
Definition look_direction (yaw pitch : R) : vec3 :=
  mkvec3 (cos (radians yaw) * cos (radians pitch))
         (sin (radians pitch))
         (sin (radians yaw) * cos (radians pitch)).

(** What else holds of the camera in every reachable state. *)
Definition camera_frame_invariant (g : Globals) : Prop :=
  front (cam g) = look_direction (yaw (cam g)) (pitch (cam g))
  /\ up (cam g) = mkvec3 0 1 0
  /\ -89 <= pitch (cam g) <= 89
  /\ 1 <= zoom (cam g) <= 90.

(** Number of frames that see the space key down after having seen it up,
    [prev] being the level seen before the first of them. *)
Fixpoint rising_edges (prev : KeyAction) (ks : list KeyAction) : nat :=
  match ks with
  | [] => 0
  | k :: ks' => ((if is_press k && is_release prev then 1 else 0) + rising_edges k ks')%nat
  end.

Definition space_levels (fs : list Frame) : list KeyAction :=
  map (fun f => KEY_SPACE (keys f)) fs.

(** A burst of cursor events, and the abscissa of its last one. *)
Definition cursor_events (ps : list (R * R)) : list Event :=
  map (fun p => CursorPos (fst p) (snd p)) ps.

Definition last_x (x0 : R) (ps : list (R * R)) : R :=
  fold_left (fun _ p => fst p) ps x0.

(** The solid the cube mesh bounds: all its vertices have coordinates
    [-0.5] or [0.5]. *)
Definition in_unit_cube (p : vec3) : Prop :=
  Rabs (vx p) <= 0.5 /\ Rabs (vy p) <= 0.5 /\ Rabs (vz p) <= 0.5.

(** Componentwise equality of vectors and matrices, closed by [ring]. *)
Ltac mat4_ext :=
  cbv [mul mul_vec add4 scale4 scale3 mcol0 mcol1 mcol2 mcol3 qx qy qz qw vx vy vz];
  repeat match goal with
         | |- mkmat4 _ _ _ _ = mkmat4 _ _ _ _ => f_equal
         | |- mkvec4 _ _ _ _ = mkvec4 _ _ _ _ => f_equal
         | |- mkvec3 _ _ _ = mkvec3 _ _ _ => f_equal
         end;
  try ring.

(** The facts about one triangle of the mesh, by evaluation. *)
Ltac mesh_triangle :=
  cbv [aPos aNormal attrib verts nth Nat.add Nat.mul cross sub3 dot in_unit_cube
       vx vy vz];
  repeat match goal with
         | |- _ /\ _ => split
         | |- mkvec3 _ _ _ = mkvec3 _ _ _ => f_equal
         | |- context [Rabs ?x] =>
             unfold Rabs at 1; destruct (Rcase_abs x)
         end;
  lra.

(** * Properties *)

(** ** Loops as lists *)

Lemma int_range_length (n : Z) : List.length (int_range n) = Z.to_nat n.
Proof. unfold int_range. now rewrite length_map, length_seq. Qed.

Lemma nth_error_int_range (n k : Z) :
  (0 <= k < n)%Z -> nth_error (int_range n) (Z.to_nat k) = Some k.
Proof.
  intros Hk. unfold int_range.
  rewrite nth_error_map.
  rewrite (nth_error_nth' _ 0%nat) by (rewrite length_seq; lia).
  rewrite seq_nth by lia. cbn. f_equal. lia.
Qed.

(** Row-major indexing of two nested loops whose inner loop always runs
    [n] times. *)
Lemma nth_error_nested {A : Type} (body : Z -> list A) (n : nat) :
  (forall r, List.length (body r) = n) ->
  forall (rows : list Z) (i j : nat) (r : Z),
    nth_error rows i = Some r -> (j < n)%nat ->
    nth_error (flat_map body rows) (i * n + j) = nth_error (body r) j.
Proof.
  intros Hlen rows. induction rows as [|r0 rows IH]; intros i j r Hi Hj.
  - destruct i; discriminate.
  - cbn [flat_map]. destruct i as [|i].
    + cbn in Hi. injection Hi as ->. cbn [Nat.mul Nat.add].
      apply nth_error_app1. now rewrite Hlen.
    + cbn in Hi.
      rewrite nth_error_app2 by (rewrite Hlen; lia).
      rewrite Hlen. replace (S i * n + j - n)%nat with (i * n + j)%nat by lia.
      now apply IH.
Qed.

Lemma sculpture_models_nth (t : R) (row col : Z) :
  (0 <= row < 10)%Z -> (0 <= col < 10)%Z ->
  nth_error (sculpture_models t) (Z.to_nat (row * 10 + col)) = Some (cell_model t row col).
Proof.
  intros Hr Hc. unfold sculpture_models.
  replace (Z.to_nat (row * 10 + col)) with (Z.to_nat row * 10 + Z.to_nat col)%nat by lia.
  rewrite (nth_error_nested _ 10 (fun r => eq_trans (length_map _ _) (int_range_length GRID))
             _ _ _ row).
  - rewrite nth_error_map, nth_error_int_range by (unfold GRID; lia). reflexivity.
  - apply nth_error_int_range. unfold GRID; lia.
  - lia.
Qed.

Lemma sculpture_models_length (t : R) : List.length (sculpture_models t) = 100%nat.
Proof.
  unfold sculpture_models.
  assert (H : forall rows : list Z,
             List.length (flat_map (fun row => map (fun col => cell_model t row col)
                                                    (int_range GRID)) rows)
             = (List.length rows * 10)%nat).
  { induction rows as [|r rows IH]; [reflexivity|].
    cbn [flat_map]. rewrite length_app, length_map, int_range_length, IH.
    reflexivity. }
  rewrite H, int_range_length. reflexivity.
Qed.

Lemma ptPos_nth (t : R) (i : Z) :
  (0 <= i < 4)%Z -> nth_error (ptPos t) (Z.to_nat i) = Some (ptPos_at t i).
Proof.
  intros Hi. unfold ptPos.
  now rewrite nth_error_map, nth_error_int_range.
Qed.

(** ** Light rig *)

Lemma light_index_cases (i : Z) :
  (0 <= i < 4)%Z -> i = 0%Z \/ i = 1%Z \/ i = 2%Z \/ i = 3%Z.
Proof. lia. Qed.

Lemma light_config (i : Z) :
  (0 <= i < 4)%Z ->
  at_index OR i = Spec.radius i /\ at_index OY i = Spec.baseHeight i
  /\ at_index SP i = Spec.speed i.
Proof.
  intros Hi.
  destruct (light_index_cases i Hi) as [-> | [-> | [-> | ->]]];
    repeat split; reflexivity.
Qed.

Lemma ptPos_at_spec (t : R) (i : Z) :
  (0 <= i < 4)%Z -> ptPos_at t i = Spec.light_position i t.
Proof.
  intros Hi. destruct (light_config i Hi) as (Hr & Hy & Hs).
  unfold ptPos_at, Spec.light_position, Spec.angle, two_pi.
  rewrite Hr, Hy, Hs.
  replace (Spec.speed i * t + IZR i * (2 * PI) / 4)
    with (Spec.speed i * t + IZR i * (2 * PI / 4)) by lra.
  replace (t * 0.7 + IZR i) with (0.7 * t + IZR i) by lra.
  reflexivity.
Qed.

Lemma ptPos_at_on_circle (t : R) (i : Z) :
  Rsqr (vx (ptPos_at t i)) + Rsqr (vz (ptPos_at t i)) = Rsqr (at_index OR i).
Proof.
  unfold ptPos_at. cbn [vx vz].
  set (a := at_index SP i * t + IZR i * two_pi / 4).
  rewrite !Rsqr_mult, <- Rmult_plus_distr_l.
  rewrite (Rplus_comm (Rsqr (cos a))), sin2_cos2. ring.
Qed.

(** ** Sculpture field *)

Lemma off_spec : off = Spec.offset /\ off = 9.9.
Proof.
  unfold off, Spec.offset, GRID, Spec.gridSize, SPACING, Spec.spacing.
  split; cbn [Z.sub Z.add Z.opp Z.pos_sub Pos.pred_double]; lra.
Qed.

Lemma cell_gx_spec (col : Z) : cell_gx col = Spec.x col.
Proof. unfold cell_gx, Spec.x. now rewrite (proj1 off_spec). Qed.

Lemma cell_gz_spec (row : Z) : cell_gz row = Spec.z row.
Proof. unfold cell_gz, Spec.z. now rewrite (proj1 off_spec). Qed.

Lemma cell_d_spec (row col : Z) : cell_d row col = Spec.d row col.
Proof.
  unfold cell_d, Spec.d, Rsqr. now rewrite cell_gx_spec, cell_gz_spec.
Qed.

Lemma cell_gy_spec (t : R) (row col : Z) : cell_gy t row col = Spec.y row col t.
Proof.
  unfold cell_gy, Spec.y.
  rewrite cell_d_spec, cell_gx_spec, cell_gz_spec.
  replace (Spec.d row col * 0.55 - t * 2) with (0.55 * Spec.d row col - 2 * t) by lra.
  replace (Spec.x col * 0.5 + t * 1.3) with (0.5 * Spec.x col + 1.3 * t) by lra.
  replace (Spec.z row * 0.5 - t * 1.1) with (0.5 * Spec.z row - 1.1 * t) by lra.
  lra.
Qed.

Lemma cell_spin_spec (t : R) (row col : Z) : cell_spin t row col = Spec.spin row col t.
Proof. unfold cell_spin, Spec.spin. rewrite cell_d_spec. lra. Qed.

Lemma cell_s_spec (t : R) (row col : Z) : cell_s t row col = Spec.cell_scale row col t.
Proof.
  unfold cell_s, Spec.cell_scale. rewrite cell_d_spec.
  now replace (t * 3 + Spec.d row col) with (3 * t + Spec.d row col) by lra.
Qed.

(** ** GLM transforms as matrix products *)

Lemma normalize_unit (v : vec3) : dot v v = 1 -> normalize v = v.
Proof.
  intros H. unfold normalize, inversesqrt. rewrite H, sqrt_1.
  destruct v as [a b c]. mat4_ext; field.
Qed.

Lemma mul_diag_1_l (m : mat4) : mul (mat4_diag 1) m = m.
Proof.
  destruct m as [[? ? ? ?] [? ? ? ?] [? ? ? ?] [? ? ? ?]].
  unfold mat4_diag. mat4_ext.
Qed.

Lemma translate_as_product (m : mat4) (v : vec3) :
  translate m v = mul m (Spec.translation v).
Proof.
  destruct m as [[? ? ? ?] [? ? ? ?] [? ? ? ?] [? ? ? ?]].
  unfold translate, Spec.translation. mat4_ext.
Qed.

Lemma rotate_y_as_product (m : mat4) (theta : R) :
  rotate m theta (mkvec3 0 1 0) = mul m (Spec.rotation_y theta).
Proof.
  unfold rotate. rewrite normalize_unit by (unfold dot; cbn [vx vy vz]; ring).
  destruct m as [[? ? ? ?] [? ? ? ?] [? ? ? ?] [? ? ? ?]].
  unfold Spec.rotation_y. mat4_ext.
Qed.

Lemma scale_uniform_as_product (m : mat4) (k : R) :
  scale m (mkvec3 k k k) = mul m (Spec.scaling k).
Proof.
  destruct m as [[? ? ? ?] [? ? ? ?] [? ? ? ?] [? ? ? ?]].
  unfold scale, Spec.scaling. mat4_ext.
Qed.

Lemma cell_model_product (t : R) (row col : Z) :
  cell_model t row col =
  mul (mul (Spec.translation (mkvec3 (cell_gx col) (cell_gy t row col) (cell_gz row)))
           (Spec.rotation_y (radians (cell_spin t row col))))
      (Spec.scaling (cell_s t row col)).
Proof.
  unfold cell_model.
  rewrite scale_uniform_as_product, rotate_y_as_product, translate_as_product.
  now rewrite mul_diag_1_l.
Qed.

Lemma cell_model_translation (t : R) (row col : Z) :
  mcol3 (cell_model t row col) = mkvec4 (cell_gx col) (cell_gy t row col) (cell_gz row) 1.
Proof.
  rewrite cell_model_product.
  unfold Spec.translation, Spec.rotation_y, Spec.scaling. mat4_ext.
Qed.

Lemma radians_spec (deg : R) : radians deg = Spec.degrees_to_radians deg.
Proof. unfold radians, Spec.degrees_to_radians. lra. Qed.

(** ** Claims on the sculpture field and the light rig *)

(** C1.  The cell drawn for [(row, col)], [0 <= row, col < 10], at animation
    time [t] is placed at [(x, y, z)] with [x = col * 2.2 - offset],
    [z = row * 2.2 - offset], [offset = (10 - 1) * 2.2 / 2] and
    [y = 2 sin(0.55 d - 2 t) + 0.8 sin(0.5 x + 1.3 t) + 0.8 cos(0.5 z - 1.1 t)],
    [d = sqrt(x^2 + z^2)]: these are the values of the loop's locals and the
    translation column of the uploaded model matrix. *)
Theorem sculpture_cell_position (t : R) (row col : Z) :
  (0 <= row < 10)%Z -> (0 <= col < 10)%Z ->
  let offset := (10 - 1) * 2.2 / 2 in
  let x := IZR col * 2.2 - offset in
  let z := IZR row * 2.2 - offset in
  let d := sqrt (x * x + z * z) in
  let y := 2 * sin (0.55 * d - 2 * t) + 0.8 * sin (0.5 * x + 1.3 * t)
           + 0.8 * cos (0.5 * z - 1.1 * t) in
  off = offset /\ cell_gx col = x /\ cell_gz row = z /\ cell_d row col = d
  /\ cell_gy t row col = y
  /\ exists model,
       nth_error (sculpture_models t) (Z.to_nat (row * 10 + col)) = Some model
       /\ mcol3 model = mkvec4 x y z 1.
Proof.
  intros Hr Hc offset x z d y.
  assert (Hoff : off = offset) by (rewrite (proj2 off_spec); unfold offset; lra).
  assert (Hx : cell_gx col = x) by (unfold cell_gx, x, SPACING; now rewrite Hoff).
  assert (Hz : cell_gz row = z) by (unfold cell_gz, z, SPACING; now rewrite Hoff).
  assert (Hd : cell_d row col = d) by (unfold cell_d, d; now rewrite Hx, Hz).
  assert (Hy : cell_gy t row col = y).
  { rewrite cell_gy_spec. unfold Spec.y.
    rewrite <- cell_d_spec, <- cell_gx_spec, <- cell_gz_spec, Hd, Hx, Hz.
    reflexivity. }
  repeat split; try assumption.
  exists (cell_model t row col). split.
  - now apply sculpture_models_nth.
  - now rewrite cell_model_translation, Hx, Hy, Hz.
Qed.

(** The cell of row 3, column 7 at time 0. *)
Lemma sculpture_cell_position_witness :
  exists model,
    nth_error (sculpture_models 0) (Z.to_nat (3 * 10 + 7)) = Some model
    /\ qx (mcol3 model) = IZR 7 * 2.2 - (10 - 1) * 2.2 / 2.
Proof.
  destruct (sculpture_cell_position 0 3 7 ltac:(lia) ltac:(lia))
    as (_ & _ & _ & _ & _ & model & Hnth & Hcol).
  exists model. split; [exact Hnth | now rewrite Hcol].
Defined.

(** C2.  For [i] in [{0,1,2,3}] the position uploaded for point light [i]
    is [(radius[i] cos a, baseHeight[i] + 1.5 sin(0.7 t + i), radius[i] sin a)]
    with [a = speed[i] t + i (2 pi / 4)], [radius = (8, 11, 9, 6.5)],
    [baseHeight = (3, 1.5, 5, 2.5)], [speed = (0.7, -0.5, 1.1, -0.9)], where
    [t] is the animation time of the state: the state enters only through
    [animTime], and drawing returns parameters without touching the state. *)
Theorem point_light_position (g : Globals) (i : Z) :
  (0 <= i < 4)%Z ->
  nth_error (pointLights (draw g)) (Z.to_nat i)
  = Some (Spec.light_position i (animTime g)).
Proof.
  intros Hi. unfold draw. cbn [pointLights].
  rewrite ptPos_nth by assumption. f_equal. now apply ptPos_at_spec.
Qed.

(** Light 3 in the initial state. *)
Lemma point_light_position_witness :
  nth_error (pointLights (draw globals_init)) (Z.to_nat 3)
  = Some (Spec.light_position 3 (animTime globals_init)).
Proof. apply (point_light_position globals_init 3). lia. Defined.

(** C5.  For [i] in [{0,1,2,3}] and every [t], the position of light [i]
    satisfies [x^2 + z^2 = radius[i]^2] in real arithmetic. *)
Theorem point_light_on_circle (t : R) (i : Z) :
  (0 <= i < 4)%Z ->
  exists p,
    nth_error (ptPos t) (Z.to_nat i) = Some p
    /\ vx p * vx p + vz p * vz p = Spec.radius i * Spec.radius i.
Proof.
  intros Hi. exists (ptPos_at t i). split.
  - now apply ptPos_nth.
  - destruct (light_config i Hi) as (Hr & _).
    rewrite <- Hr. apply (ptPos_at_on_circle t i).
Qed.

(** Light 1 at time 2.5. *)
Lemma point_light_on_circle_witness :
  exists p,
    nth_error (ptPos 2.5) (Z.to_nat 1) = Some p
    /\ vx p * vx p + vz p * vz p = Spec.radius 1 * Spec.radius 1.
Proof. apply (point_light_on_circle 2.5 1). lia. Defined.

(** C8.  For a cell of the grid at animation time [t], with [d] its distance
    from the grid centre: the spin is [50 t + 12 d] degrees, the scale is
    [0.88 + 0.12 sin(3 t + d)], and the uploaded matrix is the product
    translation * rotation about Y * uniform scaling, so a vertex is scaled,
    then turned about the vertical axis, then moved to the cell. *)
Theorem sculpture_cell_transform (t : R) (row col : Z) :
  (0 <= row < 10)%Z -> (0 <= col < 10)%Z ->
  let d := Spec.d row col in
  let spin := 50 * t + 12 * d in
  let s := 0.88 + 0.12 * sin (3 * t + d) in
  let theta := spin * PI / 180 in
  let x := Spec.x col in
  let y := Spec.y row col t in
  let z := Spec.z row in
  cell_d row col = d /\ cell_spin t row col = spin /\ cell_s t row col = s
  /\ exists model,
       nth_error (sculpture_models t) (Z.to_nat (row * 10 + col)) = Some model
       /\ model = mul (mul (Spec.translation (mkvec3 x y z)) (Spec.rotation_y theta))
                      (Spec.scaling s)
       /\ forall px py pz,
            mul_vec model (mkvec4 px py pz 1)
            = mkvec4 (x + (cos theta * (s * px) + sin theta * (s * pz)))
                     (y + s * py)
                     (z + (- sin theta * (s * px) + cos theta * (s * pz)))
                     1.
Proof.
  intros Hr Hc d spin s theta x y z.
  assert (Hspin : cell_spin t row col = spin) by apply cell_spin_spec.
  assert (Hs : cell_s t row col = s) by apply cell_s_spec.
  assert (Hm : cell_model t row col
               = mul (mul (Spec.translation (mkvec3 x y z)) (Spec.rotation_y theta))
                     (Spec.scaling s)).
  { rewrite cell_model_product, cell_gx_spec, cell_gy_spec, cell_gz_spec.
    now rewrite radians_spec, Hspin, Hs. }
  split; [apply cell_d_spec|]. split; [exact Hspin|]. split; [exact Hs|].
  exists (cell_model t row col). split; [now apply sculpture_models_nth|].
  split; [exact Hm|].
  intros px py pz. rewrite Hm.
  unfold Spec.translation, Spec.rotation_y, Spec.scaling. mat4_ext.
Qed.

(** The cell of row 9, column 0 at time 1. *)
Lemma sculpture_cell_transform_witness :
  cell_spin 1 9 0 = 50 * 1 + 12 * Spec.d 9 0.
Proof.
  exact (proj1 (proj2 (sculpture_cell_transform 1 9 0 ltac:(lia) ltac:(lia)))).
Defined.

(** C3 (as amended).  At [t = 0] the corner cell [row = 0, col = 0] has
    [offset = 9.9], [x = z = -9.9], [d = sqrt(196.02) = 14.0007...] and
    [y = 2 sin(0.55 d) + 0.8 sin(0.5 * -9.9) + 0.8 cos(-0.5 * -9.9)]. *)
Theorem corner_cell_at_time_zero :
  off = 9.9 /\ cell_gx 0 = -9.9 /\ cell_gz 0 = -9.9
  /\ cell_d 0 0 = sqrt 196.02
  /\ 14.0007 < cell_d 0 0 < 14.0008
  /\ cell_gy 0 0 0 = 2 * sin (0.55 * cell_d 0 0) + 0.8 * sin (0.5 * -9.9)
                     + 0.8 * cos (-0.5 * -9.9).
Proof.
  assert (Hoff : off = 9.9) by apply off_spec.
  assert (Hx : cell_gx 0 = -9.9) by (unfold cell_gx, SPACING; rewrite Hoff; lra).
  assert (Hz : cell_gz 0 = -9.9) by (unfold cell_gz, SPACING; rewrite Hoff; lra).
  assert (Hd : cell_d 0 0 = sqrt 196.02).
  { unfold cell_d. rewrite Hx, Hz. f_equal. lra. }
  repeat split; try assumption.
  - rewrite Hd. rewrite <- (sqrt_square 14.0007) by lra.
    apply sqrt_lt_1_alt. lra.
  - rewrite Hd. rewrite <- (sqrt_square 14.0008) by lra.
    apply sqrt_lt_1_alt. lra.
  - unfold cell_gy. rewrite Hx, Hz.
    replace (cell_d 0 0 * 0.55 - 0 * 2) with (0.55 * cell_d 0 0) by lra.
    replace (-9.9 * 0.5 + 0 * 1.3) with (0.5 * -9.9) by lra.
    replace (-9.9 * 0.5 - 0 * 1.1) with (- (-0.5 * -9.9)) by lra.
    rewrite cos_neg. lra.
Qed.

(** C3, as stated, fails: the distance of the corner cell is not within
    [1e-4] of [13.9986]. *)
Lemma corner_cell_distance_is_not_13_9986 :
  ~ Rabs (cell_d 0 0 - 13.9986) <= 0.0001.
Proof.
  assert (Hd : cell_d 0 0 = sqrt 196.02).
  { unfold cell_d, cell_gx, cell_gz, SPACING. rewrite (proj2 off_spec).
    f_equal. lra. }
  assert (H14 : 14 < cell_d 0 0).
  { rewrite Hd. rewrite <- (sqrt_square 14) by lra.
    apply sqrt_lt_1_alt. lra. }
  intros Habs. pose proof (Rle_abs (cell_d 0 0 - 13.9986)). lra.
Qed.

(** ** The animation clock *)

Lemma dispatch_same_clock (g : Globals) (e : Event) : same_clock g (dispatch g e).
Proof.
  destruct e as [xd yd | xo yo]; cbn [dispatch].
  - unfold mouse_callback. destruct (firstMouse g); repeat split.
  - repeat split.
Qed.

Lemma pollEvents_same_clock (evs : list Event) :
  forall g, same_clock g (pollEvents g evs).
Proof.
  unfold pollEvents.
  induction evs as [|e evs IH]; intros g; cbn [fold_left].
  - repeat split.
  - destruct (IH (dispatch g e)) as (H1 & H2 & H3 & H4 & H5 & H6).
    destruct (dispatch_same_clock g e) as (E1 & E2 & E3 & E4 & E5 & E6).
    repeat split; congruence.
Qed.

Lemma processInput_clock (g : Globals) (k : Keys) :
  dt (processInput g k) = dt g
  /\ lastFrame (processInput g k) = lastFrame g
  /\ animTime (processInput g k) = animTime g
  /\ paused (processInput g k)
     = (if is_press (KEY_SPACE k) && is_release (prev g)
        then negb (paused g) else paused g)
  /\ prev (processInput g k) = KEY_SPACE k
  /\ windowShouldClose (processInput g k)
     = (is_press (KEY_ESCAPE k) || windowShouldClose g)%bool.
Proof.
  destruct k as [[] [] [] [] [] []]; destruct g as [c x y fm d lf p a [] w];
    repeat split; reflexivity.
Qed.

(** The effect of one loop iteration on the clock. *)
Lemma frame_clock (g : Globals) (f : Frame) :
  dt (frame g f) = now f - lastFrame g
  /\ lastFrame (frame g f) = now f
  /\ animTime (frame g f)
     = (if paused g then animTime g else animTime g + (now f - lastFrame g))
  /\ paused (frame g f)
     = (if is_press (KEY_SPACE (keys f)) && is_release (prev g)
        then negb (paused g) else paused g)
  /\ prev (frame g f) = KEY_SPACE (keys f)
  /\ windowShouldClose (frame g f)
     = (is_press (KEY_ESCAPE (keys f)) || windowShouldClose g)%bool.
Proof.
  unfold frame.
  destruct (pollEvents_same_clock (events f) (processInput (tick g (now f)) (keys f)))
    as (H1 & H2 & H3 & H4 & H5 & H6).
  destruct (processInput_clock (tick g (now f)) (keys f))
    as (P1 & P2 & P3 & P4 & P5 & P6).
  rewrite H1, H2, H3, H4, H5, H6, P1, P2, P3, P4, P5, P6.
  unfold tick; cbn [set_clock dt lastFrame animTime paused prev windowShouldClose].
  destruct (paused g); repeat split; reflexivity.
Qed.

Lemma render_loop_closed (fs : list Frame) (g : Globals) :
  windowShouldClose g = true -> render_loop g fs = g.
Proof. intros H. destruct fs; cbn [render_loop]; [|rewrite H]; reflexivity. Qed.

Lemma render_loop_app (fs1 fs2 : list Frame) :
  forall g, render_loop g (fs1 ++ fs2) = render_loop (render_loop g fs1) fs2.
Proof.
  induction fs1 as [|f fs1 IH]; intros g; cbn [app render_loop]; [reflexivity|].
  destruct (windowShouldClose g) eqn:Hc; [|apply IH].
  symmetry. now apply render_loop_closed.
Qed.

Lemma render_loop_snoc (fs : list Frame) (f : Frame) (g : Globals) :
  render_loop g (fs ++ [f])
  = if windowShouldClose (render_loop g fs) then render_loop g fs
    else frame (render_loop g fs) f.
Proof. rewrite render_loop_app. reflexivity. Qed.

Lemma clock_monotone_In (ts : list R) :
  forall last t, clock_monotone last ts -> In t ts -> last <= t.
Proof.
  induction ts as [|t0 ts IH]; intros last t Hm Hin; [contradiction|].
  destruct Hm as (H0 & Hm). destruct Hin as [-> | Hin]; [exact H0|].
  apply Rle_trans with t0; [exact H0 | now apply IH].
Qed.

(** Under a monotone clock the stored [lastFrame] never exceeds the next
    reading. *)
Lemma lastFrame_le_next (pre : list Frame) (f : Frame) :
  forall g, clock_monotone (lastFrame g) (map now (pre ++ [f])) ->
            lastFrame (render_loop g pre) <= now f.
Proof.
  induction pre as [|a pre IH]; intros g Hm.
  - cbn in Hm. cbn [render_loop]. tauto.
  - cbn [render_loop]. destruct (windowShouldClose g).
    + apply (clock_monotone_In _ _ _ Hm). rewrite map_app.
      apply in_or_app. right. now left.
    + apply IH. destruct (frame_clock g a) as (_ & -> & _).
      cbn in Hm. tauto.
Qed.

Lemma clock_monotone_prefix (ts1 ts2 : list R) :
  forall last, clock_monotone last (ts1 ++ ts2) -> clock_monotone last ts1.
Proof.
  induction ts1 as [|t ts1 IH]; intros last Hm; cbn [app clock_monotone] in *.
  - exact I.
  - split; [tauto | apply IH; tauto].
Qed.

(** Over a whole run with a monotone clock the animation time only grows. *)
Lemma animTime_run_nondecreasing (fs : list Frame) :
  forall g, clock_monotone (lastFrame g) (map now fs) ->
            animTime g <= animTime (render_loop g fs).
Proof.
  induction fs as [|f fs IH]; intros g Hm; cbn [render_loop].
  - apply Rle_refl.
  - destruct (windowShouldClose g); [apply Rle_refl|].
    cbn [map clock_monotone] in Hm. destruct Hm as (Hle & Hm).
    destruct (frame_clock g f) as (_ & Hlf & Ha & _).
    apply Rle_trans with (animTime (frame g f)).
    + rewrite Ha. destruct (paused g); lra.
    + apply IH. now rewrite Hlf.
Qed.

(** C4.  At every frame [f] of a run: if the clock is paused when the frame
    starts, [animTime] is the same after the frame, whatever the reading of
    the wall clock; [dt] and [lastFrame] are updated in either state as long
    as the loop runs; and when the wall clock does not run backwards,
    [animTime] after the frame is at least what it was before the frame,
    which is at least what it was when the run started. *)
Theorem animTime_frozen_or_nondecreasing (g : Globals) (pre : list Frame) (f : Frame) :
  let g1 := render_loop g pre in
  let g2 := render_loop g (pre ++ [f]) in
  (paused g1 = true -> animTime g2 = animTime g1)
  /\ (windowShouldClose g1 = false ->
      dt g2 = now f - lastFrame g1 /\ lastFrame g2 = now f)
  /\ (clock_monotone (lastFrame g) (map now (pre ++ [f])) ->
      animTime g <= animTime g1 <= animTime g2).
Proof.
  intros g1 g2. subst g2. rewrite render_loop_snoc. fold g1.
  destruct (frame_clock g1 f) as (Hdt & Hlf & Ha & _).
  split; [|split].
  - intros Hp. destruct (windowShouldClose g1); [reflexivity|].
    now rewrite Ha, Hp.
  - intros ->. split; assumption.
  - intros Hm. split.
    + apply animTime_run_nondecreasing.
      rewrite map_app in Hm. now apply clock_monotone_prefix in Hm.
    + destruct (windowShouldClose g1); [apply Rle_refl|].
      rewrite Ha. destruct (paused g1); [apply Rle_refl|].
      pose proof (lastFrame_le_next pre f g Hm) as Hle. fold g1 in Hle. lra.
Qed.

(** A frame that sees space go down at time 1, then a frame at time 5:
    the clock is paused during the second one. *)
Lemma animTime_frozen_or_nondecreasing_witness :
  paused (render_loop globals_init [mkFrame 1 space_down []]) = true
  /\ clock_monotone (lastFrame globals_init)
                    (map now ([mkFrame 1 space_down []] ++ [mkFrame 5 no_keys []]))
  /\ animTime (render_loop globals_init
                           ([mkFrame 1 space_down []] ++ [mkFrame 5 no_keys []]))
     = animTime (render_loop globals_init [mkFrame 1 space_down []])
  /\ animTime (render_loop globals_init [mkFrame 1 space_down []])
     <= animTime (render_loop globals_init
                              ([mkFrame 1 space_down []] ++ [mkFrame 5 no_keys []])).
Proof.
  assert (Hp : paused (render_loop globals_init [mkFrame 1 space_down []]) = true)
    by reflexivity.
  assert (Hm : clock_monotone (lastFrame globals_init)
                 (map now ([mkFrame 1 space_down []] ++ [mkFrame 5 no_keys []])))
    by (cbn; lra).
  destruct (animTime_frozen_or_nondecreasing globals_init
              [mkFrame 1 space_down []] (mkFrame 5 no_keys []))
    as (Hfrozen & _ & Hmono).
  split; [exact Hp|]. split; [exact Hm|].
  split; [exact (Hfrozen Hp) | exact (proj2 (Hmono Hm))].
Defined.

(** ** Pause toggling *)

(** While the window stays open the loop is the plain iteration of its
    body. *)
Lemma render_loop_open (fs : list Frame) :
  forall g, windowShouldClose g = false -> Forall escape_released fs ->
            render_loop g fs = fold_left frame fs g
            /\ windowShouldClose (fold_left frame fs g) = false.
Proof.
  induction fs as [|f fs IH]; intros g Hc Hesc; cbn [render_loop fold_left].
  - split; [reflexivity | exact Hc].
  - rewrite Hc. inversion Hesc as [|? ? Hf Hfs]; subst.
    apply IH; [|exact Hfs].
    destruct (frame_clock g f) as (_ & _ & _ & _ & _ & ->).
    unfold escape_released in Hf. now rewrite Hf, Hc.
Qed.

Lemma last_now_app (t0 : R) (fs1 fs2 : list Frame) :
  last_now t0 (fs1 ++ fs2) = last_now (last_now t0 fs1) fs2.
Proof. unfold last_now. apply fold_left_app. Qed.

Lemma last_now_cons (t0 : R) (f : Frame) (fs : list Frame) :
  last_now t0 (f :: fs) = last_now (now f) fs.
Proof. reflexivity. Qed.

(** A run of frames over which the space key keeps one level [k] and no
    rising edge can occur: the pause flag stays, and the clock advances by
    the elapsed wall time exactly when it is running. *)
Lemma level_segment (k : KeyAction) (fs : list Frame) :
  forall g,
    Forall (space_is k) fs ->
    (k = GLFW_PRESS -> prev g = GLFW_PRESS) ->
    let g' := fold_left frame fs g in
    paused g' = paused g
    /\ lastFrame g' = last_now (lastFrame g) fs
    /\ animTime g'
       = (if paused g then animTime g
          else animTime g + (last_now (lastFrame g) fs - lastFrame g))
    /\ (fs <> [] \/ prev g = k -> prev g' = k).
Proof.
  induction fs as [|f fs IH]; intros g Hk Hprev; cbn [fold_left].
  - cbn zeta. unfold last_now; cbn [fold_left].
    repeat split; [destruct (paused g); lra | intros [H | H]; [now elim H | exact H]].
  - inversion Hk as [|? ? Hf Hfs]; subst. unfold space_is in Hf.
    destruct (frame_clock g f) as (_ & Hlf & Ha & Hp & Hpr & _).
    assert (Hp' : paused (frame g f) = paused g).
    { rewrite Hp, Hf. destruct k; [reflexivity|].
      rewrite (Hprev eq_refl). reflexivity. }
    assert (Hprev' : k = GLFW_PRESS -> prev (frame g f) = GLFW_PRESS)
      by (intros <-; now rewrite Hpr).
    destruct (IH (frame g f) Hfs Hprev') as (I1 & I2 & I3 & I4).
    cbn zeta. rewrite I1, I2, I3, Hp', Hlf, Ha, last_now_cons.
    repeat split.
    + destruct (paused g); lra.
    + intros _. apply I4. right. now rewrite Hpr.
Qed.

(** A frame that sees the space key go down. *)
Lemma press_frame (g : Globals) (f : Frame) :
  prev g = GLFW_RELEASE -> space_is GLFW_PRESS f ->
  paused (frame g f) = negb (paused g)
  /\ prev (frame g f) = GLFW_PRESS
  /\ lastFrame (frame g f) = now f
  /\ animTime (frame g f)
     = (if paused g then animTime g else animTime g + (now f - lastFrame g)).
Proof.
  intros Hprev Hf. unfold space_is in Hf.
  destruct (frame_clock g f) as (_ & Hlf & Ha & Hp & Hpr & _).
  rewrite Hp, Hpr, Hf, Hprev. repeat split; assumption.
Qed.

(** One press-and-release cycle of the space key: frames with the key up,
    the frame [p] that sees it go down, frames that see it held, then at
    least one frame that sees it up again. *)
Lemma press_release_cycle (g : Globals) (pre hold rel : list Frame) (p r : Frame) :
  prev g = GLFW_RELEASE ->
  Forall (space_is GLFW_RELEASE) pre -> space_is GLFW_PRESS p ->
  Forall (space_is GLFW_PRESS) hold -> Forall (space_is GLFW_RELEASE) (r :: rel) ->
  let g' := fold_left frame (pre ++ p :: hold ++ r :: rel) g in
  paused g' = negb (paused g)
  /\ prev g' = GLFW_RELEASE
  /\ lastFrame g' = last_now (now p) (hold ++ r :: rel)
  /\ animTime g'
     = (if paused g then animTime g + (last_now (now p) (hold ++ r :: rel) - now p)
        else animTime g + (now p - lastFrame g)).
Proof.
  intros Hprev Hpre Hp Hhold Hrel g'. subst g'.
  rewrite fold_left_app. cbn [fold_left]. rewrite fold_left_app.
  destruct (level_segment GLFW_RELEASE pre g Hpre ltac:(discriminate))
    as (A1 & A2 & A3 & A4).
  set (g1 := fold_left frame pre g) in *.
  destruct (press_frame g1 p (A4 (or_intror Hprev)) Hp) as (B1 & B2 & B3 & B4).
  set (g2 := frame g1 p) in *.
  destruct (level_segment GLFW_PRESS hold g2 Hhold (fun _ => B2))
    as (C1 & C2 & C3 & _).
  set (g3 := fold_left frame hold g2) in *.
  destruct (level_segment GLFW_RELEASE (r :: rel) g3 Hrel ltac:(discriminate))
    as (D1 & D2 & D3 & D4).
  rewrite D1, D2, D3, C1, C2, C3, B1, B3, B4, A1, A2, A3, last_now_app.
  repeat split.
  - apply D4. left. discriminate.
  - destruct (paused g); cbn [negb]; lra.
Qed.

(** C7.  From RUNNING, with the space key up: a press-and-release cycle
    (the key seen down in frame [p1], held over [hold1], up again from [r1])
    leaves the clock PAUSED, a second cycle ([p2], [hold2], [r2]) leaves it
    RUNNING, however many frames the key is held; and [animTime] has then
    advanced by the wall time up to [p1] plus the wall time after [p2]:
    nothing of the interval between [p1] and [p2] is counted. *)
Theorem pause_toggled_twice
  (g : Globals) (pre hold1 rel1 hold2 rel2 : list Frame) (p1 r1 p2 r2 : Frame) :
  paused g = false -> prev g = GLFW_RELEASE -> windowShouldClose g = false ->
  Forall (space_is GLFW_RELEASE) pre ->
  space_is GLFW_PRESS p1 -> Forall (space_is GLFW_PRESS) hold1 ->
  Forall (space_is GLFW_RELEASE) (r1 :: rel1) ->
  space_is GLFW_PRESS p2 -> Forall (space_is GLFW_PRESS) hold2 ->
  Forall (space_is GLFW_RELEASE) (r2 :: rel2) ->
  let cycle1 := pre ++ p1 :: hold1 ++ r1 :: rel1 in
  let cycle2 := p2 :: hold2 ++ r2 :: rel2 in
  Forall escape_released (cycle1 ++ cycle2) ->
  let g_mid := render_loop g cycle1 in
  let g_end := render_loop g (cycle1 ++ cycle2) in
  let t_end := last_now (now p2) (hold2 ++ r2 :: rel2) in
  paused g_mid = true
  /\ animTime g_mid = animTime g + (now p1 - lastFrame g)
  /\ paused g_end = false
  /\ animTime g_end = animTime g + (now p1 - lastFrame g) + (t_end - now p2)
  /\ animTime g_end = animTime g + (t_end - lastFrame g) - (now p2 - now p1).
Proof.
  intros Hrun Hprev Hopen Hpre Hp1 Hhold1 Hrel1 Hp2 Hhold2 Hrel2
         cycle1 cycle2 Hesc g_mid g_end t_end.
  destruct (proj1 (Forall_app _ _ _) Hesc) as (Hesc1 & _).
  destruct (render_loop_open cycle1 g Hopen Hesc1) as (Emid & _).
  destruct (render_loop_open (cycle1 ++ cycle2) g Hopen Hesc) as (Eend & _).
  subst g_mid g_end. rewrite Emid, Eend, fold_left_app.
  destruct (press_release_cycle g pre hold1 rel1 p1 r1 Hprev Hpre Hp1 Hhold1 Hrel1)
    as (A1 & A2 & A3 & A4).
  fold cycle1 in A1, A2, A3, A4.
  set (gm := fold_left frame cycle1 g) in *.
  rewrite Hrun in A1, A4. cbn [negb] in A1.
  destruct (press_release_cycle gm [] hold2 rel2 p2 r2 A2 (Forall_nil _)
              Hp2 Hhold2 Hrel2) as (B1 & _ & _ & B4).
  cbn [app] in B1, B4. fold cycle2 in B1, B4. fold t_end in B4.
  rewrite A1 in B1, B4. cbn [negb] in B1.
  rewrite B1, B4, A4.
  repeat split; try assumption; lra.
Qed.

(** Space down at 1, held at 2, up at 3; down at 10, held at 11, up at 12:
    the clock runs again and shows 1 + 2 seconds. *)
Lemma pause_toggled_twice_witness :
  paused (render_loop globals_init
            ([] ++ mkFrame 1 space_down []
                :: [mkFrame 2 space_down []] ++ mkFrame 3 no_keys [] :: [])) = true
  /\ animTime (render_loop globals_init
                 (([] ++ mkFrame 1 space_down []
                       :: [mkFrame 2 space_down []] ++ mkFrame 3 no_keys [] :: [])
                  ++ mkFrame 10 space_down []
                     :: [mkFrame 11 space_down []] ++ mkFrame 12 no_keys [] :: []))
     = 0 + (1 - 0) + (12 - 10).
Proof.
  destruct (pause_toggled_twice globals_init
              [] [mkFrame 2 space_down []] [] [mkFrame 11 space_down []] []
              (mkFrame 1 space_down []) (mkFrame 3 no_keys [])
              (mkFrame 10 space_down []) (mkFrame 12 no_keys []))
    as (H1 & _ & _ & H4 & _);
    try reflexivity;
    try (repeat constructor; fail).
  split; [exact H1 | exact H4].
Defined.

(** ** Camera *)

Lemma direction_unit (y p : R) :
  dot (mkvec3 (cos y * cos p) (sin p) (sin y * cos p))
      (mkvec3 (cos y * cos p) (sin p) (sin y * cos p)) = 1.
Proof.
  unfold dot. cbn [vx vy vz].
  pose proof (sin2_cos2 y) as Hy. pose proof (sin2_cos2 p) as Hp.
  unfold Rsqr in Hy, Hp. nra.
Qed.

(** [look] leaves a unit vector in [front]: the vector built from the two
    angles has length one already, and normalising keeps it. *)
Lemma look_front (c : Camera) (dx dy : R) :
  let yaw' := radians (yaw c + dx * 0.1) in
  let pitch' := radians (clamp (pitch c + dy * 0.1) (-89.0) 89.0) in
  front (look c dx dy)
  = mkvec3 (cos yaw' * cos pitch') (sin pitch') (sin yaw' * cos pitch')
  /\ length (front (look c dx dy)) = 1.
Proof.
  intros yaw' pitch'. unfold look. cbn [front]. fold yaw' pitch'.
  rewrite (normalize_unit _ (direction_unit yaw' pitch')).
  split; [reflexivity|].
  unfold length. rewrite direction_unit. apply sqrt_1.
Qed.

Lemma clamp_bounds (x lo hi : R) : lo <= hi -> lo <= clamp x lo hi <= hi.
Proof.
  intros H. unfold clamp, Rmin, Rmax.
  destruct (Rle_dec x lo); destruct (Rle_dec _ hi); lra.
Qed.

Lemma clamp_inside (x lo hi : R) : lo <= x <= hi -> clamp x lo hi = x.
Proof.
  intros H. unfold clamp, Rmin, Rmax.
  destruct (Rle_dec x lo); destruct (Rle_dec _ hi); lra.
Qed.

Lemma clamp_above (x lo hi : R) : lo <= hi -> hi <= x -> clamp x lo hi = hi.
Proof.
  intros H1 H2. unfold clamp, Rmin, Rmax.
  destruct (Rle_dec x lo); destruct (Rle_dec _ hi); lra.
Qed.

Lemma look_pitch (c : Camera) (dx dy : R) : -89 <= pitch (look c dx dy) <= 89.
Proof.
  unfold look. cbn [pitch].
  pose proof (clamp_bounds (pitch c + dy * 0.1) (-89.0) 89.0 ltac:(lra)). lra.
Qed.

(** A look by a zero delta, from the initial orientation, changes nothing. *)
Lemma look_zero_initial (c : Camera) :
  orientation c = orientation cam_init -> look c 0 0 = c.
Proof.
  destruct c as [p f u y pt z]. unfold orientation, cam_init. cbn [front yaw pitch].
  intros H. injection H as -> -> ->.
  unfold look. cbn [pos front up yaw pitch zoom].
  replace (-90 + 0 * 0.1) with (-90) by lra.
  rewrite (clamp_inside (0 + 0 * 0.1)) by lra.
  replace (0 + 0 * 0.1) with 0 by lra.
  unfold radians.
  replace (-90 * (PI / 180)) with (- (PI / 2)) by lra.
  replace (0 * (PI / 180)) with 0 by lra.
  rewrite cos_neg, sin_neg, cos_PI2, sin_PI2, cos_0, sin_0.
  rewrite normalize_unit by (unfold dot; cbn [vx vy vz]; ring).
  do 2 f_equal; ring.
Qed.

Lemma cam_init_front_unit : length (front cam_init) = 1.
Proof.
  unfold length, dot, cam_init. cbn [front vx vy vz].
  replace (0 * 0 + 0 * 0 + -1 * -1) with 1 by ring. apply sqrt_1.
Qed.

(** Moving and zooming never write [front], [yaw] or [pitch]. *)
Lemma move_orientation (c : Camera) (d : R) :
  orientation (moveForward c d) = orientation c
  /\ orientation (moveBackward c d) = orientation c
  /\ orientation (moveLeft c d) = orientation c
  /\ orientation (moveRight c d) = orientation c.
Proof. repeat split. Qed.

Lemma processInput_camera (g : Globals) (k : Keys) :
  orientation (cam (processInput g k)) = orientation (cam g)
  /\ firstMouse (processInput g k) = firstMouse g.
Proof.
  destruct k as [[] [] [] [] [] []]; destruct g as [c x y fm d lf p a [] w];
    split; reflexivity.
Qed.

Lemma tick_camera (g : Globals) (t : R) :
  cam (tick g t) = cam g /\ firstMouse (tick g t) = firstMouse g.
Proof. split; reflexivity. Qed.

Lemma scroll_callback_camera (g : Globals) (yo : R) :
  orientation (cam (scroll_callback g yo)) = orientation (cam g)
  /\ firstMouse (scroll_callback g yo) = firstMouse g.
Proof. split; reflexivity. Qed.

(** What [mouse_callback] does, by the value of [firstMouse]. *)
Lemma mouse_callback_cases (g : Globals) (xd yd : R) :
  cam (mouse_callback g xd yd)
  = (if firstMouse g then look (cam g) 0 0
     else look (cam g) (xd - lastX g) (lastY g - yd))
  /\ lastX (mouse_callback g xd yd) = xd
  /\ lastY (mouse_callback g xd yd) = yd
  /\ firstMouse (mouse_callback g xd yd) = false.
Proof.
  unfold mouse_callback. destruct (firstMouse g) eqn:Hfm.
  - cbn [set_mouse set_cam cam lastX lastY firstMouse].
    unfold Rminus. rewrite !Rplus_opp_r. repeat split.
  - cbn [set_mouse set_cam cam lastX lastY firstMouse]. repeat split. exact Hfm.
Qed.

Lemma orientation_invariant (g : Globals) (c : Camera) :
  orientation c = orientation (cam g) ->
  length (front (cam g)) = 1 /\ -89 <= pitch (cam g) <= 89 ->
  length (front c) = 1 /\ -89 <= pitch c <= 89.
Proof.
  unfold orientation. intros H. injection H as -> _ ->. tauto.
Qed.

Lemma reachable_camera_invariant (g : Globals) : reachable g -> camera_invariant g.
Proof.
  unfold camera_invariant.
  induction 1 as [| g t _ IH | g k _ IH | g e _ IH].
  - split; [apply cam_init_front_unit|].
    split; [cbn; lra | reflexivity].
  - destruct (tick_camera g t) as (-> & ->). exact IH.
  - destruct (processInput_camera g k) as (Ho & Hfm).
    destruct IH as (I1 & I2 & I3).
    destruct (orientation_invariant g _ Ho (conj I1 I2)) as (J1 & J2).
    rewrite Ho, Hfm. tauto.
  - destruct e as [xd yd | xo yo]; cbn [dispatch].
    + destruct (mouse_callback_cases g xd yd) as (Hc & _ & _ & Hfm).
      rewrite Hc, Hfm.
      destruct (firstMouse g);
        (split; [apply look_front | split; [apply look_pitch | discriminate]]).
    + destruct (scroll_callback_camera g yo) as (Ho & Hfm).
      destruct IH as (I1 & I2 & I3).
      destruct (orientation_invariant g _ Ho (conj I1 I2)) as (J1 & J2).
      rewrite Ho, Hfm. tauto.
Qed.

Lemma pollEvents_reachable (evs : list Event) :
  forall g, reachable g -> reachable (pollEvents g evs).
Proof.
  unfold pollEvents. induction evs as [|e evs IH]; intros g Hg; cbn [fold_left].
  - exact Hg.
  - apply IH. now apply reach_event.
Qed.

(** Every state the render loop passes through is reachable. *)
Lemma render_loop_reachable (fs : list Frame) :
  forall g, reachable g -> reachable (render_loop g fs).
Proof.
  induction fs as [|f fs IH]; intros g Hg; cbn [render_loop]; [exact Hg|].
  destruct (windowShouldClose g); [exact Hg|].
  apply IH. unfold frame. apply pollEvents_reachable.
  apply reach_input. now apply reach_tick.
Qed.

(** C6 (as amended).  In every reachable state, so after any sequence of
    mouse-motion updates, the pitch lies in the closed interval
    [[-89, 89]]: it never passes 89 degrees, and can be equal to it. *)
Theorem pitch_within_clamp (g : Globals) :
  reachable g -> -89 <= pitch (cam g) <= 89.
Proof. intros Hg. apply (reachable_camera_invariant g Hg). Qed.

(** The state after one cursor event. *)
Lemma pitch_within_clamp_witness :
  reachable (dispatch globals_init (CursorPos 0 1000))
  /\ -89 <= pitch (cam (dispatch globals_init (CursorPos 0 1000))) <= 89.
Proof.
  assert (Hr : reachable (dispatch globals_init (CursorPos 0 1000)))
    by (apply reach_event, reach_init).
  split; [exact Hr | exact (pitch_within_clamp _ Hr)].
Defined.

(** C6, as stated, fails: after the cursor moved up by 1000 pixels between
    two events the pitch is 89, which is not strictly below 89. *)
Lemma pitch_reaches_89 :
  pitch (cam (render_loop globals_init
                [mkFrame 0 no_keys [CursorPos 0 1000; CursorPos 0 0]])) = 89
  /\ ~ (-89 < pitch (cam (render_loop globals_init
                            [mkFrame 0 no_keys [CursorPos 0 1000; CursorPos 0 0]]))
        < 89).
Proof.
  assert (H : pitch (cam (render_loop globals_init
                [mkFrame 0 no_keys [CursorPos 0 1000; CursorPos 0 0]])) = 89).
  { cbn [render_loop globals_init windowShouldClose].
    unfold frame. cbn [events pollEvents fold_left dispatch].
    set (g0 := processInput _ _).
    destruct (mouse_callback_cases g0 0 1000) as (_ & _ & Hy & Hfm).
    destruct (mouse_callback_cases (mouse_callback g0 0 1000) 0 0) as (Hc & _).
    assert (Hp : pitch (cam (mouse_callback g0 0 1000)) = 0).
    { destruct (mouse_callback_cases g0 0 1000) as (Hc0 & _).
      rewrite Hc0. change (firstMouse g0) with true. cbv iota.
      rewrite look_zero_initial; reflexivity. }
    rewrite Hc, Hfm, Hy. unfold look. cbn [pitch].
    rewrite Hp, clamp_above; lra. }
  split; [exact H | rewrite H; lra].
Qed.

(** C9.  In every reachable state [front] has length one; a mouse look
    leaves a vector of length one in [front], whatever the deltas, and the
    four movement operations leave [front] as it is.  The initial state is
    reachable, with [front = (0, 0, -1)]. *)
Theorem front_unit_length (g : Globals) :
  reachable g ->
  length (front (cam g)) = 1
  /\ (forall dx dy, length (front (look (cam g) dx dy)) = 1)
  /\ (forall d, front (moveForward (cam g) d) = front (cam g)
                /\ front (moveBackward (cam g) d) = front (cam g)
                /\ front (moveLeft (cam g) d) = front (cam g)
                /\ front (moveRight (cam g) d) = front (cam g)).
Proof.
  intros Hg. split; [apply (reachable_camera_invariant g Hg)|].
  split; [intros dx dy; apply look_front|].
  intros d. destruct (move_orientation (cam g) d) as (Hf & Hb & Hl & Hr).
  unfold orientation in Hf, Hb, Hl, Hr.
  repeat split; congruence.
Qed.

(** The state after a frame with two cursor events. *)
Lemma front_unit_length_witness :
  reachable (render_loop globals_init
               [mkFrame 0.5 no_keys [CursorPos 10 20; CursorPos 30 5]])
  /\ length (front (cam (render_loop globals_init
               [mkFrame 0.5 no_keys [CursorPos 10 20; CursorPos 30 5]]))) = 1.
Proof.
  assert (Hr : reachable (render_loop globals_init
               [mkFrame 0.5 no_keys [CursorPos 10 20; CursorPos 30 5]]))
    by (apply render_loop_reachable, reach_init).
  split; [exact Hr | exact (proj1 (front_unit_length _ Hr))].
Defined.

(** C10.  In a reachable state that has seen no cursor event yet
    ([firstMouse] still set), a cursor event at any position leaves the
    camera as it is (a look by the zero delta) and only records the
    position.  In a state that has seen one, a cursor event at [(x, y)]
    turns the camera by the delta from the recorded position: the yaw
    grows by [0.1 (x - lastX)] degrees, so it changes whenever [x] differs
    from [lastX]; the pitch becomes the old pitch plus [0.1 (lastY - y)],
    clamped to [[-89, 89]]; [front] is the direction of the new angles;
    position, [up] and zoom stay.  The new position is recorded. *)
Theorem first_cursor_event_keeps_camera (g : Globals) (xd yd : R) :
  reachable g ->
  let g' := mouse_callback g xd yd in
  lastX g' = xd /\ lastY g' = yd /\ firstMouse g' = false
  /\ (firstMouse g = true -> cam g' = look (cam g) 0 0 /\ cam g' = cam g)
  /\ (firstMouse g = false ->
      cam g' = look (cam g) (xd - lastX g) (lastY g - yd)
      /\ yaw (cam g') = yaw (cam g) + (xd - lastX g) * 0.1
      /\ (xd <> lastX g -> yaw (cam g') <> yaw (cam g))
      /\ pitch (cam g') = clamp (pitch (cam g) + (lastY g - yd) * 0.1) (-89) 89
      /\ front (cam g')
         = mkvec3 (cos (radians (yaw (cam g'))) * cos (radians (pitch (cam g'))))
                  (sin (radians (pitch (cam g'))))
                  (sin (radians (yaw (cam g'))) * cos (radians (pitch (cam g'))))
      /\ pos (cam g') = pos (cam g) /\ up (cam g') = up (cam g)
      /\ zoom (cam g') = zoom (cam g)).
Proof.
  intros Hg g'. subst g'.
  destruct (mouse_callback_cases g xd yd) as (Hc & Hx & Hy & Hfm).
  split; [exact Hx|]. split; [exact Hy|]. split; [exact Hfm|]. split.
  - intros Hf. rewrite Hc, Hf. split; [reflexivity|].
    apply look_zero_initial. now apply (reachable_camera_invariant g Hg).
  - intros Hf. rewrite Hc, Hf.
    assert (Hyaw : yaw (look (cam g) (xd - lastX g) (lastY g - yd))
                   = yaw (cam g) + (xd - lastX g) * 0.1) by reflexivity.
    assert (Hpitch : pitch (look (cam g) (xd - lastX g) (lastY g - yd))
                     = clamp (pitch (cam g) + (lastY g - yd) * 0.1) (-89) 89).
    { unfold look. cbn [pitch].
      replace (-89.0) with (-89) by lra. now replace 89.0 with 89 by lra. }
    split; [reflexivity|]. split; [exact Hyaw|].
    split; [rewrite Hyaw; intros Hne Heq; apply Hne; lra|].
    split; [exact Hpitch|].
    split; [exact (proj1 (look_front (cam g) (xd - lastX g) (lastY g - yd)))|].
    repeat split.
Qed.

(** A first cursor event at (812, 77) inside the first frame, which leaves
    the camera alone, and a second one 30 pixels to the right and 20 up,
    which turns it by 3 degrees of yaw and 2 of pitch. *)
Lemma first_cursor_event_keeps_camera_witness :
  reachable (processInput (tick globals_init 0.25) no_keys)
  /\ cam (mouse_callback (processInput (tick globals_init 0.25) no_keys) 812 77)
     = cam (processInput (tick globals_init 0.25) no_keys)
  /\ reachable (mouse_callback (processInput (tick globals_init 0.25) no_keys) 812 77)
  /\ yaw (cam (mouse_callback
                 (mouse_callback (processInput (tick globals_init 0.25) no_keys) 812 77)
                 842 57))
     = -90 + 3
  /\ pitch (cam (mouse_callback
                   (mouse_callback (processInput (tick globals_init 0.25) no_keys) 812 77)
                   842 57))
     = 2.
Proof.
  assert (Hr : reachable (processInput (tick globals_init 0.25) no_keys))
    by (apply reach_input, reach_tick, reach_init).
  assert (Hr1 : reachable (mouse_callback
                             (processInput (tick globals_init 0.25) no_keys) 812 77))
    by (apply (reach_event _ (CursorPos 812 77)); exact Hr).
  destruct (first_cursor_event_keeps_camera _ 812 77 Hr)
    as (Hx1 & Hy1 & Hfm1 & Hfirst & _).
  destruct (Hfirst eq_refl) as (_ & Hsame).
  destruct (first_cursor_event_keeps_camera _ 842 57 Hr1)
    as (_ & _ & _ & _ & Hsecond).
  destruct (Hsecond Hfm1) as (_ & Hyaw & _ & Hpitch & _).
  split; [exact Hr|]. split; [exact Hsame|]. split; [exact Hr1|].
  rewrite Hyaw, Hpitch, Hx1, Hy1, Hsame.
  change (yaw (cam (processInput (tick globals_init 0.25) no_keys))) with (-90).
  change (pitch (cam (processInput (tick globals_init 0.25) no_keys))) with 0.
  split; [lra|].
  rewrite clamp_inside; lra.
Defined.


(** * Further properties *)

(** ** Camera: zoom, orientation frame, movement *)

Lemma look_direction_unit (y p : R) :
  dot (look_direction y p) (look_direction y p) = 1.
Proof. unfold look_direction. apply direction_unit. Qed.

Lemma look_frame (c : Camera) (dx dy : R) :
  front (look c dx dy) = look_direction (yaw (look c dx dy)) (pitch (look c dx dy))
  /\ up (look c dx dy) = up c /\ zoom (look c dx dy) = zoom c
  /\ pos (look c dx dy) = pos c.
Proof.
  split; [|repeat split].
  unfold look. cbn [front yaw pitch]. fold (look_direction (yaw c + dx * 0.1)
    (clamp (pitch c + dy * 0.1) (-89.0) 89.0)).
  apply normalize_unit, look_direction_unit.
Qed.

Lemma cam_init_direction : front cam_init = look_direction (yaw cam_init) (pitch cam_init).
Proof.
  unfold look_direction, cam_init, radians. cbn [front yaw pitch].
  replace (-90 * (PI / 180)) with (- (PI / 2)) by lra.
  replace (0 * (PI / 180)) with 0 by lra.
  rewrite cos_neg, sin_neg, cos_PI2, sin_PI2, cos_0, sin_0.
  f_equal; ring.
Qed.

Lemma processInput_frame (g : Globals) (k : Keys) :
  front (cam (processInput g k)) = front (cam g)
  /\ up (cam (processInput g k)) = up (cam g)
  /\ yaw (cam (processInput g k)) = yaw (cam g)
  /\ pitch (cam (processInput g k)) = pitch (cam g)
  /\ zoom (cam (processInput g k)) = zoom (cam g).
Proof.
  destruct k as [[] [] [] [] [] []]; destruct g as [c x y fm d lf p a [] w];
    repeat split; reflexivity.
Qed.

Lemma reachable_camera_frame (g : Globals) : reachable g -> camera_frame_invariant g.
Proof.
  unfold camera_frame_invariant.
  induction 1 as [| g t _ IH | g k _ IH | g e _ IH].
  - split; [apply cam_init_direction|].
    split; [reflexivity|]. cbn. lra.
  - exact IH.
  - destruct (processInput_frame g k) as (-> & -> & -> & -> & ->). exact IH.
  - destruct IH as (I1 & I2 & I3 & I4).
    destruct e as [xd yd | xo yo]; cbn [dispatch].
    + destruct (mouse_callback_cases g xd yd) as (Hc & _).
      rewrite Hc.
      destruct (firstMouse g);
        match goal with
        | |- context [look ?c ?dx ?dy] =>
            destruct (look_frame c dx dy) as (L1 & L2 & L3 & _);
            rewrite L2, L3;
            (split; [exact L1 | split; [exact I2 | split; [apply look_pitch | exact I4]]])
        end.
    + unfold scroll_callback. cbn [set_cam cam front up yaw pitch zoom].
      split; [exact I1 | split; [exact I2 | split; [exact I3|]]].
      pose proof (clamp_bounds (zoom (cam g) - yo) 1.0 90.0 ltac:(lra)). lra.
Qed.

(** X1.  In every reachable state the zoom (the field of view, in degrees)
    is between 1 and 90: it starts at 45 and every scroll clamps it. *)
Theorem zoom_within_bounds (g : Globals) :
  reachable g -> 1 <= zoom (cam g) <= 90.
Proof. intros Hg. apply (reachable_camera_frame g Hg). Qed.

(** A scroll of 100 notches towards the user. *)
Lemma zoom_within_bounds_witness :
  reachable (dispatch globals_init (Scroll 0 (-100)))
  /\ 1 <= zoom (cam (dispatch globals_init (Scroll 0 (-100)))) <= 90.
Proof.
  assert (Hr : reachable (dispatch globals_init (Scroll 0 (-100))))
    by (apply reach_event, reach_init).
  split; [exact Hr | exact (zoom_within_bounds _ Hr)].
Defined.

(** X2.  In every reachable state [front] is the direction given by the
    current yaw and pitch, and [up] is the world's vertical. *)
Theorem front_follows_yaw_pitch (g : Globals) :
  reachable g ->
  front (cam g)
  = mkvec3 (cos (radians (yaw (cam g))) * cos (radians (pitch (cam g))))
           (sin (radians (pitch (cam g))))
           (sin (radians (yaw (cam g))) * cos (radians (pitch (cam g))))
  /\ up (cam g) = mkvec3 0 1 0.
Proof.
  intros Hg. destruct (reachable_camera_frame g Hg) as (H1 & H2 & _).
  split; [exact H1 | exact H2].
Qed.

(** The state after a cursor event that follows the first one. *)
Lemma front_follows_yaw_pitch_witness :
  reachable (pollEvents globals_init [CursorPos 0 0; CursorPos 40 (-25)])
  /\ up (cam (pollEvents globals_init [CursorPos 0 0; CursorPos 40 (-25)]))
     = mkvec3 0 1 0.
Proof.
  assert (Hr : reachable (pollEvents globals_init [CursorPos 0 0; CursorPos 40 (-25)]))
    by (apply pollEvents_reachable, reach_init).
  split; [exact Hr | exact (proj2 (front_follows_yaw_pitch _ Hr))].
Defined.

Lemma cos_pitch_pos (p : R) : -89 <= p <= 89 -> 0 < cos (radians p).
Proof.
  intros Hp. pose proof PI_RGT_0 as Hpi.
  apply cos_gt_0; unfold radians; nra.
Qed.

Lemma Rabs_minus_one : Rabs (-1) = 1.
Proof. unfold Rabs. destruct (Rcase_abs (-1)); lra. Qed.

Lemma length_scale3 (v : vec3) (k : R) : length (scale3 v k) = Rabs k * length v.
Proof.
  unfold length, dot, scale3. cbn [vx vy vz].
  replace (vx v * k * (vx v * k) + vy v * k * (vy v * k) + vz v * k * (vz v * k))
    with (Rsqr k * (vx v * vx v + vy v * vy v + vz v * vz v)) by (unfold Rsqr; ring).
  rewrite sqrt_mult_alt by apply Rle_0_sqr.
  now rewrite sqrt_Rsqr_abs.
Qed.

Lemma sub3_add3_cancel (p v : vec3) : sub3 (add3 p v) v = p.
Proof. destruct p, v. unfold sub3, add3. cbn [vx vy vz]. f_equal; ring. Qed.

Lemma add3_sub3_cancel (p v : vec3) : add3 (sub3 p v) v = p.
Proof. destruct p, v. unfold sub3, add3. cbn [vx vy vz]. f_equal; ring. Qed.

Lemma sub3_add3_left (p v : vec3) : sub3 (add3 p v) p = v.
Proof. destruct p, v. unfold sub3, add3. cbn [vx vy vz]. f_equal; ring. Qed.

Lemma sub3_sub3_left (p v : vec3) : sub3 (sub3 p v) p = scale3 v (-1).
Proof. destruct p, v. unfold sub3, scale3. cbn [vx vy vz]. f_equal; ring. Qed.

(** The strafing axis of a camera whose [front] comes from its angles and
    whose [up] is vertical, as long as it does not look straight up or
    down. *)
Lemma strafe_axis (c : Camera) :
  front c = look_direction (yaw c) (pitch c) -> up c = mkvec3 0 1 0 ->
  0 < cos (radians (pitch c)) ->
  dot (cross (front c) (up c)) (cross (front c) (up c)) = Rsqr (cos (radians (pitch c)))
  /\ normalize (cross (front c) (up c))
     = mkvec3 (- sin (radians (yaw c))) 0 (cos (radians (yaw c))).
Proof.
  intros Hf Hu Hcos. rewrite Hf, Hu. unfold look_direction.
  set (cy := cos (radians (yaw c))). set (sy := sin (radians (yaw c))).
  set (cp := cos (radians (pitch c))) in *. set (sp := sin (radians (pitch c))).
  assert (Hy : sy * sy + cy * cy = 1) by apply (sin2_cos2 (radians (yaw c))).
  assert (Hdot : dot (cross (mkvec3 (cy * cp) sp (sy * cp)) (mkvec3 0 1 0))
                     (cross (mkvec3 (cy * cp) sp (sy * cp)) (mkvec3 0 1 0))
                 = Rsqr cp).
  { unfold dot, cross, Rsqr. cbn [vx vy vz]. nra. }
  split; [exact Hdot|].
  unfold normalize, inversesqrt. rewrite Hdot, sqrt_Rsqr by lra.
  unfold cross, scale3. cbn [vx vy vz]. f_equal; field; lra.
Qed.

(** X3.  In every reachable state the strafing axis
    [normalize(cross(front, up))] is well defined: the cross product is not
    the zero vector (the pitch clamp keeps [front] off the vertical), and
    the axis is the horizontal unit vector [(-sin yaw, 0, cos yaw)], at right
    angles to [front].  So [moveRight] and [moveLeft] keep the camera's
    height and shift it by [5 |dt|]. *)
Theorem strafe_is_horizontal (g : Globals) (d : R) :
  reachable g ->
  let c := cam g in
  let right := normalize (cross (front c) (up c)) in
  0 < dot (cross (front c) (up c)) (cross (front c) (up c))
  /\ right = mkvec3 (- sin (radians (yaw c))) 0 (cos (radians (yaw c)))
  /\ length right = 1 /\ dot right (front c) = 0
  /\ vy (pos (moveRight c d)) = vy (pos c) /\ vy (pos (moveLeft c d)) = vy (pos c)
  /\ length (sub3 (pos (moveRight c d)) (pos c)) = 5 * Rabs d
  /\ length (sub3 (pos (moveLeft c d)) (pos c)) = 5 * Rabs d.
Proof.
  intros Hg c right.
  destruct (reachable_camera_frame g Hg) as (Hf & Hu & Hp & _). fold c in Hf, Hu, Hp.
  pose proof (cos_pitch_pos _ Hp) as Hcos.
  destruct (strafe_axis c Hf Hu Hcos) as (Hdot & Hright). fold right in Hright.
  assert (Hlen : length right = 1).
  { rewrite Hright. unfold length, dot. cbn [vx vy vz].
    pose proof (sin2_cos2 (radians (yaw c))) as Hy. unfold Rsqr in Hy.
    replace (_ + _ + _) with 1 by nra. apply sqrt_1. }
  split; [rewrite Hdot; unfold Rsqr; nra|].
  split; [exact Hright|]. split; [exact Hlen|].
  split; [rewrite Hright, Hf; unfold dot, look_direction; cbn [vx vy vz]; ring|].
  unfold moveRight, moveLeft, set_pos. cbn [pos]. fold right.
  split; [rewrite Hright; unfold add3, scale3; cbn [vx vy vz]; ring|].
  split; [rewrite Hright; unfold sub3, scale3; cbn [vx vy vz]; ring|].
  rewrite sub3_add3_left, sub3_sub3_left, !length_scale3, Hlen.
  rewrite Rabs_mult, (Rabs_right 5.0) by lra.
  rewrite Rabs_minus_one.
  split; lra.
Qed.

(** Looking up as far as the clamp lets, then strafing for a quarter second. *)
Lemma strafe_is_horizontal_witness :
  reachable (pollEvents globals_init [CursorPos 0 5000; CursorPos 0 0])
  /\ vy (pos (moveRight (cam (pollEvents globals_init [CursorPos 0 5000; CursorPos 0 0]))
                        0.25))
     = vy (pos (cam (pollEvents globals_init [CursorPos 0 5000; CursorPos 0 0]))).
Proof.
  assert (Hr : reachable (pollEvents globals_init [CursorPos 0 5000; CursorPos 0 0]))
    by (apply pollEvents_reachable, reach_init).
  split; [exact Hr|].
  destruct (strafe_is_horizontal _ 0.25 Hr) as (_ & _ & _ & _ & H & _). exact H.
Defined.

(** X4.  In every reachable state [moveForward] and [moveBackward] shift the
    camera along [front] by [5 |dt|], and nothing else of it changes. *)
Theorem walk_speed (g : Globals) (d : R) :
  reachable g ->
  let c := cam g in
  sub3 (pos (moveForward c d)) (pos c) = scale3 (front c) (5 * d)
  /\ sub3 (pos (moveBackward c d)) (pos c) = scale3 (front c) (- (5 * d))
  /\ length (sub3 (pos (moveForward c d)) (pos c)) = 5 * Rabs d
  /\ length (sub3 (pos (moveBackward c d)) (pos c)) = 5 * Rabs d
  /\ orientation (moveForward c d) = orientation c
  /\ orientation (moveBackward c d) = orientation c
  /\ zoom (moveForward c d) = zoom c /\ zoom (moveBackward c d) = zoom c.
Proof.
  intros Hg c.
  destruct (reachable_camera_invariant g Hg) as (Hlen & _). fold c in Hlen.
  unfold moveForward, moveBackward, set_pos. cbn [pos zoom].
  rewrite sub3_add3_left, sub3_sub3_left, !length_scale3, Hlen.
  rewrite Rabs_mult, (Rabs_right 5.0) by lra.
  rewrite Rabs_minus_one.
  repeat split; try lra.
  - destruct (front c). unfold scale3. cbn [vx vy vz]. f_equal; lra.
  - destruct (front c). unfold scale3. cbn [vx vy vz]. f_equal; lra.
Qed.

(** Half a second of walking from the start. *)
Lemma walk_speed_witness :
  reachable globals_init
  /\ length (sub3 (pos (moveForward (cam globals_init) 0.5)) (pos (cam globals_init)))
     = 5 * Rabs 0.5.
Proof.
  split; [exact reach_init|].
  destruct (walk_speed globals_init 0.5 reach_init) as (_ & _ & H & _). exact H.
Defined.

Lemma forward_then_backward (c : Camera) (d : R) : moveBackward (moveForward c d) d = c.
Proof.
  destruct c as [p f u y pt z]. unfold moveBackward, moveForward, set_pos.
  cbn [pos front up yaw pitch zoom]. now rewrite sub3_add3_cancel.
Qed.

Lemma left_then_right (c : Camera) (d : R) : moveRight (moveLeft c d) d = c.
Proof.
  destruct c as [p f u y pt z]. unfold moveRight, moveLeft, set_pos.
  cbn [pos front up yaw pitch zoom]. now rewrite add3_sub3_cancel.
Qed.

(** X5.  Opposite keys cancel: when W and S are in the same state and A and
    D are in the same state, [processInput] leaves the camera where it is
    (in exact arithmetic), whatever the frame time. *)
Theorem opposite_keys_cancel (g : Globals) (k : Keys) :
  KEY_W k = KEY_S k -> KEY_A k = KEY_D k -> cam (processInput g k) = cam g.
Proof.
  destruct k as [e w s a d sp]. cbn [KEY_W KEY_S KEY_A KEY_D].
  intros <- <-. destruct g as [c x y fm dt0 lf p at0 pv cl].
  unfold processInput.
  cbn [KEY_ESCAPE KEY_W KEY_S KEY_A KEY_D KEY_SPACE].
  destruct e, w, a, sp, pv;
    cbn [is_press is_release andb set_windowShouldClose set_cam set_paused set_prev
         cam dt paused prev];
    rewrite ?forward_then_backward, ?left_then_right; reflexivity.
Qed.

(** All four movement keys down for a 16 ms frame. *)
Lemma opposite_keys_cancel_witness :
  cam (processInput (tick globals_init 0.016)
         (mkKeys GLFW_RELEASE GLFW_PRESS GLFW_PRESS GLFW_PRESS GLFW_PRESS GLFW_RELEASE))
  = cam (tick globals_init 0.016).
Proof. apply opposite_keys_cancel; reflexivity. Defined.

(** ** Mouse look over a burst of events *)

Lemma cursor_burst (ps : list (R * R)) :
  forall g, firstMouse g = false ->
    let g' := pollEvents g (cursor_events ps) in
    yaw (cam g') = yaw (cam g) + (last_x (lastX g) ps - lastX g) * 0.1
    /\ lastX g' = last_x (lastX g) ps
    /\ firstMouse g' = false.
Proof.
  unfold pollEvents, cursor_events, last_x.
  induction ps as [|[x y] ps IH]; intros g Hfm; cbn [map fold_left fst snd dispatch].
  - repeat split; [lra | exact Hfm].
  - destruct (mouse_callback_cases g x y) as (Hc & Hx & _ & Hfm').
    destruct (IH (mouse_callback g x y) Hfm') as (I1 & I2 & I3).
    cbn zeta in I1, I2, I3. rewrite Hx in I1, I2.
    rewrite I1, I2, I3, Hc, Hfm. unfold look. cbn [yaw].
    repeat split. lra.
Qed.

(** X6.  Over a burst of cursor events the yaw moves by 0.1 degree per
    pixel between the reference abscissa and the last one, whatever the
    path in between: the reference is the recorded [lastX], or the first
    event's own abscissa when no event was seen before. *)
Theorem yaw_depends_on_endpoints (g : Globals) (p : R * R) (ps : list (R * R)) :
  let x0 := if firstMouse g then fst p else lastX g in
  let g' := pollEvents g (cursor_events (p :: ps)) in
  yaw (cam g') = yaw (cam g) + (last_x (fst p) ps - x0) * 0.1
  /\ lastX g' = last_x (fst p) ps.
Proof.
  intros x0 g'. subst g'. destruct p as [x y].
  unfold pollEvents, cursor_events. cbn [map fold_left fst snd dispatch].
  destruct (mouse_callback_cases g x y) as (Hc & Hx & _ & Hfm').
  destruct (cursor_burst ps (mouse_callback g x y) Hfm') as (I1 & I2 & _).
  unfold pollEvents, cursor_events in I1, I2. cbn zeta in I1, I2.
  rewrite Hx in I1, I2. rewrite I1, I2, Hc. subst x0. cbn [fst].
  destruct (firstMouse g); unfold look; cbn [yaw]; split; trivial; lra.
Qed.

(** ** The close flag *)

Lemma frame_keeps_closed (g : Globals) (f : Frame) :
  windowShouldClose g = true -> windowShouldClose (frame g f) = true.
Proof.
  intros H. destruct (frame_clock g f) as (_ & _ & _ & _ & _ & ->).
  rewrite H. apply orb_true_r.
Qed.

(** X7.  A frame that sees the escape key down is the last one: it is
    carried out in full, it leaves the close flag set, and the frames
    offered after it change nothing. *)
Theorem escape_ends_loop (g : Globals) (pre post : list Frame) (f : Frame) :
  KEY_ESCAPE (keys f) = GLFW_PRESS ->
  windowShouldClose (render_loop g (pre ++ [f])) = true
  /\ render_loop g (pre ++ f :: post) = render_loop g (pre ++ [f])
  /\ (windowShouldClose (render_loop g pre) = false ->
      render_loop g (pre ++ f :: post) = frame (render_loop g pre) f).
Proof.
  intros Hesc. rewrite !render_loop_app. set (g1 := render_loop g pre).
  cbn [render_loop]. destruct (windowShouldClose g1) eqn:Hc.
  - repeat split; [exact Hc | discriminate].
  - assert (Hf : windowShouldClose (frame g1 f) = true).
    { destruct (frame_clock g1 f) as (_ & _ & _ & _ & _ & ->). now rewrite Hesc. }
    rewrite (render_loop_closed post _ Hf). repeat split. exact Hf.
Qed.

(** Escape in the second of three frames. *)
Lemma escape_ends_loop_witness :
  render_loop globals_init
    ([mkFrame 1 no_keys []]
     ++ mkFrame 2 (mkKeys GLFW_PRESS GLFW_RELEASE GLFW_RELEASE GLFW_RELEASE
                          GLFW_RELEASE GLFW_RELEASE) []
     :: [mkFrame 3 space_down []])
  = render_loop globals_init
      ([mkFrame 1 no_keys []]
       ++ [mkFrame 2 (mkKeys GLFW_PRESS GLFW_RELEASE GLFW_RELEASE GLFW_RELEASE
                             GLFW_RELEASE GLFW_RELEASE) []]).
Proof.
  exact (proj1 (proj2 (escape_ends_loop globals_init [mkFrame 1 no_keys []]
                         [mkFrame 3 space_down []]
                         (mkFrame 2 (mkKeys GLFW_PRESS GLFW_RELEASE GLFW_RELEASE
                                            GLFW_RELEASE GLFW_RELEASE GLFW_RELEASE) [])
                         eq_refl))).
Defined.

(** ** The pause flag and the clock over whole runs *)

Lemma paused_parity_fold (fs : list Frame) :
  forall g,
    paused (fold_left frame fs g)
    = xorb (paused g) (Nat.odd (rising_edges (prev g) (space_levels fs))).
Proof.
  induction fs as [|f fs IH]; intros g; cbn [fold_left space_levels map rising_edges].
  - now rewrite xorb_false_r.
  - rewrite IH. destruct (frame_clock g f) as (_ & _ & _ & -> & -> & _).
    fold (space_levels fs).
    destruct (is_press (KEY_SPACE (keys f)) && is_release (prev g)).
    + rewrite Nat.odd_add. cbn [Nat.odd Nat.even].
      destruct (paused g), (Nat.odd _); reflexivity.
    + reflexivity.
Qed.

(** X8.  While the window stays open, the pause flag after a run is the
    flag before it, flipped once for every frame that sees the space key
    down after a frame that saw it up: key repeats and held keys do not
    count. *)
Theorem paused_counts_rising_edges (g : Globals) (fs : list Frame) :
  windowShouldClose g = false -> Forall escape_released fs ->
  paused (render_loop g fs)
  = xorb (paused g) (Nat.odd (rising_edges (prev g) (space_levels fs))).
Proof.
  intros Hopen Hesc.
  destruct (render_loop_open fs g Hopen Hesc) as (-> & _).
  apply paused_parity_fold.
Qed.

(** Down, held, up, down, up, down: three rising edges, so paused. *)
Lemma paused_counts_rising_edges_witness :
  paused (render_loop globals_init
            [mkFrame 1 space_down []; mkFrame 2 space_down []; mkFrame 3 no_keys [];
             mkFrame 4 space_down []; mkFrame 5 no_keys []; mkFrame 6 space_down []])
  = true.
Proof.
  rewrite (paused_counts_rising_edges globals_init); [reflexivity | reflexivity |].
  repeat constructor.
Defined.

Lemma run_within_wall_time (fs : list Frame) :
  forall g, clock_monotone (lastFrame g) (map now fs) ->
    animTime (render_loop g fs) - animTime g
    <= lastFrame (render_loop g fs) - lastFrame g
    /\ lastFrame g <= lastFrame (render_loop g fs).
Proof.
  induction fs as [|f fs IH]; intros g Hm; cbn [render_loop].
  - lra.
  - destruct (windowShouldClose g); [lra|].
    cbn [map clock_monotone] in Hm. destruct Hm as (Hle & Hm).
    destruct (frame_clock g f) as (_ & Hlf & Ha & _).
    rewrite <- Hlf in Hm. destruct (IH (frame g f) Hm) as (I1 & I2).
    rewrite Hlf in I1, I2. rewrite Ha in I1.
    destruct (paused g); lra.
Qed.

(** X9.  With a wall clock that does not run backwards, the animation time
    gained over a run is at least zero and at most the wall time the run
    took; from startup, [0 <= animTime <= lastFrame]. *)
Theorem animTime_within_wall_time (g : Globals) (fs : list Frame) :
  clock_monotone (lastFrame g) (map now fs) ->
  0 <= animTime (render_loop g fs) - animTime g
    <= lastFrame (render_loop g fs) - lastFrame g.
Proof.
  intros Hm. pose proof (animTime_run_nondecreasing fs g Hm).
  pose proof (proj1 (run_within_wall_time fs g Hm)). lra.
Qed.

(** Paused after the first frame, for three seconds. *)
Lemma animTime_within_wall_time_witness :
  0 <= animTime (render_loop globals_init
                   [mkFrame 1 space_down []; mkFrame 4 no_keys []])
       - animTime globals_init
    <= lastFrame (render_loop globals_init
                    [mkFrame 1 space_down []; mkFrame 4 no_keys []])
       - lastFrame globals_init.
Proof. apply animTime_within_wall_time. cbn. lra. Defined.

(** X10.  As long as the space key is never seen down and the window stays
    open, a running clock follows the wall clock exactly: after the run,
    [animTime] has grown by the time from the stored [lastFrame] to the last
    reading; from startup it equals the last reading of [glfwGetTime]. *)
Theorem running_clock_follows_wall_clock (g : Globals) (fs : list Frame) :
  paused g = false -> windowShouldClose g = false ->
  Forall escape_released fs -> Forall (space_is GLFW_RELEASE) fs ->
  animTime (render_loop g fs) = animTime g + (last_now (lastFrame g) fs - lastFrame g)
  /\ lastFrame (render_loop g fs) = last_now (lastFrame g) fs
  /\ paused (render_loop g fs) = false.
Proof.
  intros Hrun Hopen Hesc Hsp.
  destruct (render_loop_open fs g Hopen Hesc) as (-> & _).
  destruct (level_segment GLFW_RELEASE fs g Hsp ltac:(discriminate))
    as (H1 & H2 & H3 & _).
  rewrite Hrun in H1, H3. repeat split; assumption.
Qed.

(** Three frames from startup, the last one at 0.05 s. *)
Lemma running_clock_follows_wall_clock_witness :
  animTime (render_loop globals_init
              [mkFrame 0.016 no_keys []; mkFrame 0.033 no_keys [];
               mkFrame 0.05 no_keys []])
  = 0 + (0.05 - 0).
Proof.
  destruct (running_clock_follows_wall_clock globals_init
              [mkFrame 0.016 no_keys []; mkFrame 0.033 no_keys [];
               mkFrame 0.05 no_keys []]) as (H & _);
    try reflexivity; try (repeat constructor; fail).
  exact H.
Defined.

(** ** Bounds on the light rig and the sculpture *)

(** X11.  Every point light bobs within 1.5 of its base height, so none of
    them ever goes below the ground plane [y = 0] or above [y = 6.5]. *)
Theorem point_light_height_bounds (t : R) (i : Z) :
  (0 <= i < 4)%Z ->
  Spec.baseHeight i - 1.5 <= vy (ptPos_at t i) <= Spec.baseHeight i + 1.5
  /\ 0 <= vy (ptPos_at t i) <= 6.5.
Proof.
  intros Hi. destruct (light_config i Hi) as (_ & Hy & _).
  unfold ptPos_at. cbn [vy]. rewrite Hy.
  pose proof (SIN_bound (t * 0.7 + IZR i)) as Hs.
  destruct (light_index_cases i Hi) as [-> | [-> | [-> | ->]]];
    cbn [Spec.baseHeight]; lra.
Qed.

(** Light 1, the lowest one, at time 10. *)
Lemma point_light_height_bounds_witness : 0 <= vy (ptPos_at 10 1) <= 6.5.
Proof. apply (point_light_height_bounds 10 1). lia. Defined.

Lemma cell_s_bounds (t : R) (row col : Z) : 0.76 <= cell_s t row col <= 1.
Proof.
  unfold cell_s. pose proof (SIN_bound (t * 3 + cell_d row col)). lra.
Qed.

(** X12.  Whatever the cell and the time, the height of a cube's centre is
    within 3.6 of the ground plane and its scale is between 0.76 and 1: a
    cube never shrinks to nothing and never turns inside out. *)
Theorem sculpture_cell_bounds (t : R) (row col : Z) :
  -3.6 <= cell_gy t row col <= 3.6 /\ 0.76 <= cell_s t row col <= 1.
Proof.
  split; [|apply cell_s_bounds].
  unfold cell_gy.
  pose proof (SIN_bound (cell_d row col * 0.55 - t * 2)).
  pose proof (SIN_bound (cell_gx col * 0.5 + t * 1.3)).
  pose proof (COS_bound (cell_gz row * 0.5 - t * 1.1)).
  lra.
Qed.

(** Where the model matrix of a cell sends a point of the mesh. *)
Lemma cell_model_apply (t : R) (row col : Z) (px py pz : R) :
  let theta := radians (cell_spin t row col) in
  let s := cell_s t row col in
  mul_vec (cell_model t row col) (mkvec4 px py pz 1)
  = mkvec4 (cell_gx col + (cos theta * (s * px) + sin theta * (s * pz)))
           (cell_gy t row col + s * py)
           (cell_gz row + (- sin theta * (s * px) + cos theta * (s * pz)))
           1.
Proof.
  intros theta s. rewrite cell_model_product. fold theta s.
  unfold Spec.translation, Spec.rotation_y, Spec.scaling. mat4_ext.
Qed.

Lemma Rabs_le_bounds (a b : R) : Rabs a <= b -> - b <= a <= b.
Proof. unfold Rabs. destruct (Rcase_abs a); lra. Qed.

(** A horizontal coordinate of a point of the unit cube, scaled by at most
    one and turned about the vertical, stays within one of the centre. *)
Lemma turned_extent (u v s a b : R) :
  -1 <= u <= 1 -> -1 <= v <= 1 -> 0 <= s <= 1 ->
  Rabs a <= 0.5 -> Rabs b <= 0.5 ->
  -1 <= u * (s * a) + v * (s * b) <= 1.
Proof.
  intros Hu Hv Hs Ha Hb.
  apply Rabs_le_bounds in Ha. apply Rabs_le_bounds in Hb.
  assert (HA : -0.5 <= s * a <= 0.5) by nra.
  assert (HB : -0.5 <= s * b <= 0.5) by nra.
  assert (-0.5 <= u * (s * a) <= 0.5) by nra.
  assert (-0.5 <= v * (s * b) <= 0.5) by nra.
  lra.
Qed.

Lemma grid_step (a b : Z) : a <> b -> 2.2 <= Rabs (IZR a * SPACING - IZR b * SPACING).
Proof.
  intros Hab. unfold SPACING.
  assert (H : (a + 1 <= b)%Z \/ (b + 1 <= a)%Z) by lia.
  destruct H as [H | H]; apply IZR_le in H; rewrite plus_IZR in H;
    unfold Rabs; destruct (Rcase_abs _); lra.
Qed.

(** X13.  The cubes of two different cells never share a point: at any
    time, the images of the unit cube under the two model matrices are
    disjoint (they are apart along the axis on which the cells differ). *)
Theorem cubes_never_overlap (t : R) (row col row' col' : Z) (p p' : vec3) :
  (row, col) <> (row', col') -> in_unit_cube p -> in_unit_cube p' ->
  mul_vec (cell_model t row col) (mkvec4 (vx p) (vy p) (vz p) 1)
  <> mul_vec (cell_model t row' col') (mkvec4 (vx p') (vy p') (vz p') 1).
Proof.
  intros Hne (Hx & _ & Hz) (Hx' & _ & Hz') Heq.
  rewrite !cell_model_apply in Heq.
  injection Heq as Ex _ Ez.
  pose proof (cell_s_bounds t row col) as Hs.
  pose proof (cell_s_bounds t row' col') as Hs'.
  set (th := radians (cell_spin t row col)) in *.
  set (th' := radians (cell_spin t row' col')) in *.
  pose proof (COS_bound th) as Hc. pose proof (SIN_bound th) as Hsn.
  pose proof (COS_bound th') as Hc'. pose proof (SIN_bound th') as Hsn'.
  assert (Hmsn : -1 <= - sin th <= 1) by lra.
  assert (Hmsn' : -1 <= - sin th' <= 1) by lra.
  assert (Hs0 : 0 <= cell_s t row col <= 1) by lra.
  assert (Hs0' : 0 <= cell_s t row' col' <= 1) by lra.
  pose proof (turned_extent _ _ _ _ _ Hc Hsn Hs0 Hx Hz) as B1.
  pose proof (turned_extent _ _ _ _ _ Hc' Hsn' Hs0' Hx' Hz') as B1'.
  pose proof (turned_extent _ _ _ _ _ Hmsn Hc Hs0 Hx Hz) as B2.
  pose proof (turned_extent _ _ _ _ _ Hmsn' Hc' Hs0' Hx' Hz') as B2'.
  destruct (Z.eq_dec col col') as [-> | Hcol].
  - assert (Hrow : row <> row') by congruence.
    pose proof (grid_step row row' Hrow) as Hstep.
    unfold cell_gz in Ez. unfold Rabs in Hstep. destruct (Rcase_abs _); lra.
  - pose proof (grid_step col col' Hcol) as Hstep.
    unfold cell_gx in Ex. unfold Rabs in Hstep. destruct (Rcase_abs _); lra.
Qed.

(** A corner of one cube against a corner of its neighbour, at time 2. *)
Lemma cubes_never_overlap_witness :
  mul_vec (cell_model 2 4 4) (mkvec4 0.5 0.5 0.5 1)
  <> mul_vec (cell_model 2 4 5) (mkvec4 (-0.5) 0.5 0.5 1).
Proof.
  apply (cubes_never_overlap 2 4 4 4 5 (mkvec3 0.5 0.5 0.5) (mkvec3 (-0.5) 0.5 0.5)).
  - intros H. discriminate H.
  - unfold in_unit_cube. cbn [vx vy vz]. rewrite Rabs_right by lra. lra.
  - unfold in_unit_cube. cbn [vx vy vz].
    rewrite (Rabs_right 0.5), (Rabs_left (-0.5)) by lra. lra.
Defined.

(** ** Geometry of the grid *)

Lemma cell_coordinate_range (k : Z) :
  (0 <= k < 10)%Z ->
  1.21 <= (IZR k * SPACING - off) * (IZR k * SPACING - off) <= 98.01.
Proof.
  intros Hk. rewrite (proj2 off_spec). unfold SPACING.
  assert (H0 : 0 <= IZR k) by (apply IZR_le; lia).
  assert (H9 : IZR k <= 9) by (apply IZR_le; lia).
  assert (H : (k <= 4)%Z \/ (5 <= k)%Z) by lia.
  destruct H as [H | H]; apply IZR_le in H; nra.
Qed.

(** X14.  The grid is centred on the origin: mirroring the indices,
    [k -> 9 - k], negates a cell's coordinate and keeps its distance from
    the centre.  No cell sits at the centre: the four innermost cells are
    the closest, at [sqrt 2.42], and the corner cells the farthest, at
    [sqrt 196.02]. *)
Theorem grid_is_centred (row col : Z) :
  (0 <= row < 10)%Z -> (0 <= col < 10)%Z ->
  cell_gx (9 - col) = - cell_gx col /\ cell_gz (9 - row) = - cell_gz row
  /\ cell_d (9 - row) (9 - col) = cell_d row col
  /\ cell_d 4 4 = sqrt 2.42 /\ cell_d 0 0 = sqrt 196.02
  /\ 0 < cell_d 4 4 <= cell_d row col /\ cell_d row col <= cell_d 0 0.
Proof.
  intros Hr Hc.
  assert (Hmirror : forall k, IZR (9 - k) * SPACING - off = - (IZR k * SPACING - off)).
  { intros k. rewrite (proj2 off_spec), minus_IZR. unfold SPACING. lra. }
  assert (Hx : cell_gx (9 - col) = - cell_gx col) by apply Hmirror.
  assert (Hz : cell_gz (9 - row) = - cell_gz row) by apply Hmirror.
  assert (H44 : cell_d 4 4 = sqrt 2.42).
  { unfold cell_d, cell_gx, cell_gz, SPACING. rewrite (proj2 off_spec). f_equal. lra. }
  assert (H00 : cell_d 0 0 = sqrt 196.02).
  { unfold cell_d, cell_gx, cell_gz, SPACING. rewrite (proj2 off_spec). f_equal. lra. }
  pose proof (cell_coordinate_range row Hr) as Br.
  pose proof (cell_coordinate_range col Hc) as Bc.
  fold (cell_gz row) in Br. fold (cell_gx col) in Bc.
  split; [exact Hx|]. split; [exact Hz|].
  split; [unfold cell_d; rewrite Hx, Hz; f_equal; ring|].
  split; [exact H44|]. split; [exact H00|].
  rewrite H44, H00. unfold cell_d. repeat split.
  - apply sqrt_lt_R0. lra.
  - apply sqrt_le_1_alt. lra.
  - apply sqrt_le_1_alt. lra.
Qed.

(** The cell of row 2, column 7 and its mirror image, row 7, column 2. *)
Lemma grid_is_centred_witness : cell_d (9 - 2) (9 - 7) = cell_d 2 7.
Proof.
  destruct (grid_is_centred 2 7 ltac:(lia) ltac:(lia)) as (_ & _ & H & _). exact H.
Defined.

(** ** What a frame draws *)

Lemma marker_models_nth (t : R) (i : Z) :
  (0 <= i < 4)%Z -> nth_error (marker_models t) (Z.to_nat i) = Some (marker_model t i).
Proof.
  intros Hi. unfold marker_models.
  now rewrite nth_error_map, nth_error_int_range.
Qed.

Lemma ptPos_read (t : R) (i : Z) :
  (0 <= i < 4)%Z -> nth (Z.to_nat i) (ptPos t) (mkvec3 0 0 0) = ptPos_at t i.
Proof.
  intros Hi. apply nth_error_nth. now apply ptPos_nth.
Qed.

(** X15.  Every frame hands over four point-light positions, four marker
    matrices and one hundred model matrices, whatever the state. *)
Theorem draw_counts (g : Globals) :
  List.length (pointLights (draw g)) = 4%nat
  /\ List.length (marker_models (animTime g)) = 4%nat
  /\ List.length (models (draw g)) = 100%nat.
Proof.
  unfold draw, marker_models, ptPos. cbn [pointLights models].
  rewrite !length_map, int_range_length, sculpture_models_length.
  repeat split.
Qed.

(** X16.  The marker cube of light [i] is the mesh shrunk to a quarter and
    centred on the position the lighting pass uses for that light: a point
    [p] of the mesh is drawn at [ptPos[i] + 0.25 p]. *)
Theorem marker_sits_on_light (g : Globals) (i : Z) :
  (0 <= i < 4)%Z ->
  exists L M,
    nth_error (pointLights (draw g)) (Z.to_nat i) = Some L
    /\ nth_error (marker_models (animTime g)) (Z.to_nat i) = Some M
    /\ forall px py pz,
         mul_vec M (mkvec4 px py pz 1)
         = mkvec4 (vx L + 0.25 * px) (vy L + 0.25 * py) (vz L + 0.25 * pz) 1.
Proof.
  intros Hi. exists (ptPos_at (animTime g) i), (marker_model (animTime g) i).
  split; [now apply ptPos_nth|]. split; [now apply marker_models_nth|].
  intros px py pz. unfold marker_model.
  rewrite (ptPos_read _ _ Hi), scale_uniform_as_product, translate_as_product.
  rewrite mul_diag_1_l. destruct (ptPos_at (animTime g) i) as [lx ly lz].
  unfold Spec.translation, Spec.scaling. mat4_ext.
Qed.

(** The marker of light 2 at startup. *)
Lemma marker_sits_on_light_witness :
  exists L M,
    nth_error (pointLights (draw globals_init)) (Z.to_nat 2) = Some L
    /\ nth_error (marker_models (animTime globals_init)) (Z.to_nat 2) = Some M
    /\ mcol3 M = mkvec4 (vx L) (vy L) (vz L) 1.
Proof.
  destruct (marker_sits_on_light globals_init 2 ltac:(lia)) as (L & M & HL & HM & Hp).
  exists L, M. split; [exact HL|]. split; [exact HM|].
  specialize (Hp 0 0 0). destruct M as [c0 c1 c2 [a b c d]].
  unfold mul_vec, add4, scale4 in Hp. cbn [mcol0 mcol1 mcol2 mcol3 qx qy qz qw] in Hp.
  cbn [mcol3]. injection Hp as Ha Hb Hc Hd. f_equal; lra.
Defined.

(** ** The view matrix *)

(** The three axes [lookAt] works with, for a camera in a reachable
    state. *)
Lemma view_axes (c : Camera) :
  front c = look_direction (yaw c) (pitch c) -> up c = mkvec3 0 1 0 ->
  0 < cos (radians (pitch c)) ->
  let cy := cos (radians (yaw c)) in
  let sy := sin (radians (yaw c)) in
  let cp := cos (radians (pitch c)) in
  let sp := sin (radians (pitch c)) in
  view c
  = mkmat4 (mkvec4 (- sy) (- (cy * sp)) (- (cy * cp)) 0)
           (mkvec4 0 cp (- sp) 0)
           (mkvec4 cy (- (sy * sp)) (- (sy * cp)) 0)
           (mkvec4 (- dot (mkvec3 (- sy) 0 cy) (pos c))
                   (- dot (mkvec3 (- (cy * sp)) cp (- (sy * sp))) (pos c))
                   (dot (mkvec3 (cy * cp) sp (sy * cp)) (pos c))
                   1).
Proof.
  intros Hf Hu Hcos cy sy cp sp.
  destruct (strafe_axis c Hf Hu Hcos) as (_ & Hright).
  fold cy sy in Hright.
  assert (Hy : sy * sy + cy * cy = 1) by apply (sin2_cos2 (radians (yaw c))).
  unfold view, lookAt. rewrite sub3_add3_left.
  rewrite (normalize_unit (front c))
    by (rewrite Hf; apply look_direction_unit).
  rewrite Hright. rewrite Hf. unfold look_direction. fold cy sy cp sp.
  unfold cross. cbn [vx vy vz].
  assert (E : cy * (cy * cp) - sy * cp * - sy = cp).
  { replace (cy * (cy * cp) - sy * cp * - sy) with (cp * (sy * sy + cy * cy)) by ring.
    rewrite Hy. ring. }
  repeat f_equal; try ring; try exact E.
  all: try (rewrite E; ring).
Qed.

(** X17.  In every reachable state the view matrix takes the camera's own
    frame to the standard one: the camera position goes to the origin, the
    point one unit ahead along [front] to [(0, 0, -1)], the point one unit
    along the strafing axis to [(1, 0, 0)], and the point one unit straight
    above to [(0, cos pitch, - sin pitch)]. *)
Theorem view_takes_camera_to_origin (g : Globals) :
  reachable g ->
  let c := cam g in
  let at_offset v := mkvec4 (vx (pos c) + vx v) (vy (pos c) + vy v) (vz (pos c) + vz v) 1 in
  mul_vec (view c) (at_offset (mkvec3 0 0 0)) = mkvec4 0 0 0 1
  /\ mul_vec (view c) (at_offset (front c)) = mkvec4 0 0 (-1) 1
  /\ mul_vec (view c) (at_offset (normalize (cross (front c) (up c)))) = mkvec4 1 0 0 1
  /\ mul_vec (view c) (at_offset (up c))
     = mkvec4 0 (cos (radians (pitch c))) (- sin (radians (pitch c))) 1.
Proof.
  intros Hg c at_offset.
  destruct (reachable_camera_frame g Hg) as (Hf & Hu & Hp & _). fold c in Hf, Hu, Hp.
  pose proof (cos_pitch_pos _ Hp) as Hcos.
  destruct (strafe_axis c Hf Hu Hcos) as (_ & Hright).
  rewrite (view_axes c Hf Hu Hcos), Hright, Hf, Hu.
  unfold look_direction, at_offset.
  set (cy := cos (radians (yaw c))). set (sy := sin (radians (yaw c))).
  set (cp := cos (radians (pitch c))). set (sp := sin (radians (pitch c))).
  assert (Hy : sy * sy + cy * cy = 1) by apply (sin2_cos2 (radians (yaw c))).
  assert (Hpt : sp * sp + cp * cp = 1) by apply (sin2_cos2 (radians (pitch c))).
  destruct (pos c) as [ex ey ez].
  unfold mul_vec, add4, scale4, dot.
  cbn [mcol0 mcol1 mcol2 mcol3 qx qy qz qw vx vy vz].
  repeat split; f_equal; try ring.
  - replace (_ + _ + _ + _) with (cp * sp * (1 - (sy * sy + cy * cy))) by ring.
    rewrite Hy. ring.
  - replace (_ + _ + _ + _)
      with (- (cp * cp * (sy * sy + cy * cy) + sp * sp)) by ring.
    rewrite Hy. lra.
  - replace (_ + _ + _ + _) with (sy * sy + cy * cy) by ring. exact Hy.
Qed.

(** After the cursor went 300 pixels right and 120 up. *)
Lemma view_takes_camera_to_origin_witness :
  reachable (pollEvents globals_init [CursorPos 0 0; CursorPos 300 (-120)])
  /\ mul_vec (view (cam (pollEvents globals_init [CursorPos 0 0; CursorPos 300 (-120)])))
       (mkvec4
          (vx (pos (cam (pollEvents globals_init [CursorPos 0 0; CursorPos 300 (-120)])))
           + vx (mkvec3 0 0 0))
          (vy (pos (cam (pollEvents globals_init [CursorPos 0 0; CursorPos 300 (-120)])))
           + vy (mkvec3 0 0 0))
          (vz (pos (cam (pollEvents globals_init [CursorPos 0 0; CursorPos 300 (-120)])))
           + vz (mkvec3 0 0 0))
          1)
     = mkvec4 0 0 0 1.
Proof.
  assert (Hr : reachable (pollEvents globals_init [CursorPos 0 0; CursorPos 300 (-120)]))
    by (apply pollEvents_reachable, reach_init).
  split; [exact Hr | exact (proj1 (view_takes_camera_to_origin _ Hr))].
Defined.

(** ** The fragment shader *)

Lemma nonneg3_add3 (a b : vec3) : nonneg3 a -> nonneg3 b -> nonneg3 (add3 a b).
Proof. unfold nonneg3, add3. cbn [vx vy vz]. lra. Qed.

Lemma nonneg3_mul3 (a b : vec3) : nonneg3 a -> nonneg3 b -> nonneg3 (glsl.mul3 a b).
Proof. unfold nonneg3, glsl.mul3. cbn [vx vy vz]. nra. Qed.

Lemma nonneg3_scale3 (a : vec3) (k : R) : nonneg3 a -> 0 <= k -> nonneg3 (scale3 a k).
Proof. unfold nonneg3, scale3. cbn [vx vy vz]. nra. Qed.

Lemma pow_nonneg (x y : R) : 0 <= glsl.pow x y.
Proof.
  unfold glsl.pow. destruct (Rle_dec x 0); [lra|].
  unfold Rpower. left. apply exp_pos.
Qed.

Lemma Rmax_zero_nonneg (x : R) : 0 <= Rmax x 0.0.
Proof. pose proof (Rmax_r x 0.0). lra. Qed.

(** The Phong sum shared by the three light kinds is non-negative. *)
Lemma phong_nonneg (amb dif spc md ms : vec3) (diff spec : R) :
  nonneg3 amb -> nonneg3 dif -> nonneg3 spc -> nonneg3 md -> nonneg3 ms ->
  0 <= diff -> 0 <= spec ->
  nonneg3 (add3 (add3 (glsl.mul3 amb md) (glsl.mul3 (scale3 dif diff) md))
                (glsl.mul3 (scale3 spc spec) ms)).
Proof.
  intros. repeat apply nonneg3_add3; apply nonneg3_mul3;
    try apply nonneg3_scale3; assumption.
Qed.

(** The distance falloff: a factor in [(0, 1]], smaller when farther. *)
Lemma attenuation_bounds (c l q dist : R) :
  1 <= c -> 0 <= l -> 0 <= q -> 0 <= dist ->
  0 < 1.0 / (c + l * dist + q * dist * dist) <= 1.
Proof.
  intros Hc Hl Hq Hd.
  assert (Hden : 1 <= c + l * dist + q * dist * dist) by nra.
  split.
  - apply Rdiv_lt_0_compat; lra.
  - pose proof (Rinv_le_contravar 1 _ Rlt_0_1 Hden) as Hinv.
    rewrite Rinv_1 in Hinv. unfold Rdiv. lra.
Qed.

Lemma attenuation_decreasing (c l q d1 d2 : R) :
  1 <= c -> 0 <= l -> 0 <= q -> 0 <= d1 <= d2 ->
  1.0 / (c + l * d2 + q * d2 * d2) <= 1.0 / (c + l * d1 + q * d1 * d1).
Proof.
  intros Hc Hl Hq Hd.
  assert (H1 : 1 <= c + l * d1 + q * d1 * d1) by nra.
  assert (Hsq : d1 * d1 <= d2 * d2) by nra.
  assert (Hq2 : q * d1 * d1 <= q * d2 * d2)
    by (rewrite !Rmult_assoc; apply Rmult_le_compat_l; lra).
  assert (Hl2 : l * d1 <= l * d2) by (apply Rmult_le_compat_l; lra).
  assert (H12 : c + l * d1 + q * d1 * d1 <= c + l * d2 + q * d2 * d2) by lra.
  unfold Rdiv. apply Rmult_le_compat_l; [lra|].
  apply Rinv_le_contravar; lra.
Qed.

Lemma length_nonneg (v : vec3) : 0 <= length v.
Proof. apply sqrt_pos. Qed.

Lemma CalcPointLight_nonneg (U : FRAG_SRC.Uniforms) (L : FRAG_SRC.PointLight)
      (n fp v : vec3) :
  nonneg3 (FRAG_SRC.matDiffuse U) -> nonneg3 (FRAG_SRC.matSpecular U) ->
  point_light_ok L ->
  nonneg3 (FRAG_SRC.CalcPointLight U L n fp v).
Proof.
  intros Hmd Hms (Ha & Hd & Hs & Hc & Hl & Hq).
  unfold FRAG_SRC.CalcPointLight. cbv zeta.
  apply nonneg3_scale3.
  - apply phong_nonneg; try assumption;
      [apply Rmax_zero_nonneg | apply pow_nonneg].
  - left. apply attenuation_bounds; try assumption. apply length_nonneg.
Qed.

Lemma CalcDirLight_nonneg (U : FRAG_SRC.Uniforms) (L : FRAG_SRC.DirLight) (n v : vec3) :
  nonneg3 (FRAG_SRC.matDiffuse U) -> nonneg3 (FRAG_SRC.matSpecular U) ->
  nonneg3 (FRAG_SRC.dl_ambient L) -> nonneg3 (FRAG_SRC.dl_diffuse L) ->
  nonneg3 (FRAG_SRC.dl_specular L) ->
  nonneg3 (FRAG_SRC.CalcDirLight U L n v).
Proof.
  intros. unfold FRAG_SRC.CalcDirLight. cbv zeta.
  apply phong_nonneg; try assumption; [apply Rmax_zero_nonneg | apply pow_nonneg].
Qed.

Lemma CalcSpotLight_nonneg (U : FRAG_SRC.Uniforms) (L : FRAG_SRC.SpotLight)
      (n fp v : vec3) :
  nonneg3 (FRAG_SRC.matDiffuse U) -> nonneg3 (FRAG_SRC.matSpecular U) ->
  nonneg3 (FRAG_SRC.sl_ambient L) -> nonneg3 (FRAG_SRC.sl_diffuse L) ->
  nonneg3 (FRAG_SRC.sl_specular L) ->
  1 <= FRAG_SRC.sl_constant L -> 0 <= FRAG_SRC.sl_linear L ->
  0 <= FRAG_SRC.sl_quadratic L ->
  nonneg3 (FRAG_SRC.CalcSpotLight U L n fp v).
Proof.
  intros. unfold FRAG_SRC.CalcSpotLight. cbv zeta.
  apply nonneg3_scale3; [apply nonneg3_scale3|].
  - apply phong_nonneg; try assumption;
      [apply Rmax_zero_nonneg | apply pow_nonneg].
  - left. apply attenuation_bounds; try assumption. apply length_nonneg.
  - match goal with
    | |- 0 <= clamp ?x _ _ => pose proof (clamp_bounds x 0.0 1.0 ltac:(lra)); lra
    end.
Qed.

Lemma PC_nonneg (k : nat) : nonneg3 (nth k PC (mkvec3 0 0 0)).
Proof.
  unfold nonneg3, PC.
  destruct k as [|[|[|[|[|k]]]]]; cbn [nth vx vy vz]; lra.
Qed.

(** The point lights uploaded by [main], and a slot outside the array,
    are all well formed but for the latter's coefficients; the loop of the
    shader reads the four uploaded ones. *)
Lemma lighting_point_light (g : Globals) (i : Z) :
  (0 <= i < 4)%Z ->
  nth (Z.to_nat i) (FRAG_SRC.pointLights (lighting_uniforms g)) FRAG_SRC.no_light
  = FRAG_SRC.mkPointLight (ptPos_at (animTime g) i) 1 0.07 0.017
      (scale3 (nth (Z.to_nat i) PC (mkvec3 0 0 0)) 0.05)
      (nth (Z.to_nat i) PC (mkvec3 0 0 0)) (nth (Z.to_nat i) PC (mkvec3 0 0 0)).
Proof.
  intros Hi. unfold lighting_uniforms. cbn [FRAG_SRC.pointLights].
  apply nth_error_nth.
  rewrite nth_error_map, nth_error_int_range by assumption.
  cbn [option_map]. now rewrite ptPos_read.
Qed.

Lemma lighting_point_light_ok (g : Globals) (i : Z) :
  (0 <= i < 4)%Z ->
  point_light_ok
    (nth (Z.to_nat i) (FRAG_SRC.pointLights (lighting_uniforms g)) FRAG_SRC.no_light).
Proof.
  intros Hi. rewrite lighting_point_light by assumption.
  unfold point_light_ok.
  cbn [FRAG_SRC.pl_ambient FRAG_SRC.pl_diffuse FRAG_SRC.pl_specular
       FRAG_SRC.pl_constant FRAG_SRC.pl_linear FRAG_SRC.pl_quadratic].
  pose proof (PC_nonneg (Z.to_nat i)) as Hpc.
  split; [apply nonneg3_scale3; [exact Hpc | lra]|].
  repeat split; try apply Hpc; lra.
Qed.

Lemma lighting_material_nonneg (g : Globals) :
  nonneg3 (FRAG_SRC.matDiffuse (lighting_uniforms g))
  /\ nonneg3 (FRAG_SRC.matSpecular (lighting_uniforms g)).
Proof. unfold nonneg3, lighting_uniforms. cbn. lra. Qed.

Lemma fold_add3_nonneg {A : Type} (F : A -> vec3) (l : list A) :
  (forall a, In a l -> nonneg3 (F a)) ->
  forall c, nonneg3 c -> nonneg3 (fold_left (fun c a => add3 c (F a)) l c).
Proof.
  induction l as [|a l IH]; intros HF c Hc; cbn [fold_left]; [exact Hc|].
  apply IH.
  - intros b Hb. apply HF. now right.
  - apply nonneg3_add3; [exact Hc | apply HF; now left].
Qed.

Lemma int_range_In (n i : Z) : In i (int_range n) -> (0 <= i < n)%Z.
Proof.
  unfold int_range. rewrite in_map_iff. intros (k & <- & Hk).
  apply in_seq in Hk. lia.
Qed.

(** X18.  With the uniforms [main] uploads, the shader never writes a
    negative colour, whatever the fragment's position and normal, and the
    alpha it writes is one. *)
Theorem fragment_colour_nonneg (g : Globals) (FragPos Normal : vec3) :
  let c := FRAG_SRC.main (lighting_uniforms g) FragPos Normal in
  0 <= qx c /\ 0 <= qy c /\ 0 <= qz c /\ qw c = 1.
Proof.
  intros c. subst c. unfold FRAG_SRC.main. cbv zeta. cbn [qx qy qz qw].
  destruct (lighting_material_nonneg g) as (Hmd & Hms).
  split; [|split; [|split; [|lra]]].
  all: match goal with
       | |- 0 <= _ (add3 ?a ?b) =>
           assert (Hn : nonneg3 (add3 a b)); [|apply Hn]
       end.
  all: apply nonneg3_add3;
    [ apply fold_add3_nonneg;
      [ intros i Hi; apply CalcPointLight_nonneg; try assumption;
        apply lighting_point_light_ok; now apply int_range_In
      | apply CalcDirLight_nonneg; try assumption;
        unfold nonneg3, lighting_uniforms; cbn; lra ]
    | apply CalcSpotLight_nonneg; try assumption;
      unfold nonneg3, lighting_uniforms; cbn; lra ].
Qed.

(** A fragment at the origin with its normal pointing up, at startup. *)
Lemma fragment_colour_nonneg_witness :
  0 <= qx (FRAG_SRC.main (lighting_uniforms globals_init) (mkvec3 0 0 0) (mkvec3 0 1 0)).
Proof.
  exact (proj1 (fragment_colour_nonneg globals_init (mkvec3 0 0 0) (mkvec3 0 1 0))).
Defined.

Lemma clamp_below (x lo hi : R) : lo <= hi -> x <= lo -> clamp x lo hi = lo.
Proof.
  intros H1 H2. unfold clamp, Rmin, Rmax.
  destruct (Rle_dec x lo); destruct (Rle_dec _ hi); lra.
Qed.

Lemma scale3_zero (a : vec3) : scale3 a 0.0 = mkvec3 0 0 0.
Proof. unfold scale3. f_equal; lra. Qed.

Lemma scale3_one (a : vec3) : scale3 a 1.0 = a.
Proof. destruct a. unfold scale3. cbn [vx vy vz]. f_equal; lra. Qed.

(** The inner cone is the narrower one. *)
Lemma spot_cone_order : cos (radians 17.5) < cos (radians 12.5).
Proof.
  pose proof PI_RGT_0 as Hpi.
  apply cos_decreasing_1; unfold radians; nra.
Qed.

(** The point light with the position and the coefficients of the
    spotlight: what the spotlight is inside its inner cone. *)
Lemma spot_inside_inner (U : FRAG_SRC.Uniforms) (L : FRAG_SRC.SpotLight) (n fp v : vec3) :
  FRAG_SRC.sl_outerCutOff L < FRAG_SRC.sl_cutOff L ->
  FRAG_SRC.sl_cutOff L
  <= dot (glsl.normalize (sub3 (FRAG_SRC.sl_position L) fp))
         (glsl.normalize (glsl.neg3 (FRAG_SRC.sl_direction L))) ->
  FRAG_SRC.CalcSpotLight U L n fp v
  = FRAG_SRC.CalcPointLight U
      (FRAG_SRC.mkPointLight (FRAG_SRC.sl_position L) (FRAG_SRC.sl_constant L)
         (FRAG_SRC.sl_linear L) (FRAG_SRC.sl_quadratic L) (FRAG_SRC.sl_ambient L)
         (FRAG_SRC.sl_diffuse L) (FRAG_SRC.sl_specular L))
      n fp v.
Proof.
  intros Heps Hth. unfold FRAG_SRC.CalcSpotLight, FRAG_SRC.CalcPointLight. cbv zeta.
  cbn [FRAG_SRC.pl_position FRAG_SRC.pl_constant FRAG_SRC.pl_linear
       FRAG_SRC.pl_quadratic FRAG_SRC.pl_ambient FRAG_SRC.pl_diffuse
       FRAG_SRC.pl_specular].
  set (theta := dot _ (glsl.normalize (glsl.neg3 _))) in *.
  set (eps := FRAG_SRC.sl_cutOff L - FRAG_SRC.sl_outerCutOff L).
  assert (Hpos : 0 < eps) by (unfold eps; lra).
  assert (Hq : 1.0 <= (theta - FRAG_SRC.sl_outerCutOff L) / eps).
  { assert (E : eps / eps = 1) by (unfold Rdiv; apply Rinv_r; lra).
    assert (eps / eps <= (theta - FRAG_SRC.sl_outerCutOff L) / eps).
    { unfold Rdiv. apply Rmult_le_compat_r.
      - left. now apply Rinv_0_lt_compat.
      - unfold eps. lra. }
    lra. }
  rewrite clamp_above by lra. apply scale3_one.
Qed.

Lemma spot_outside_outer (U : FRAG_SRC.Uniforms) (L : FRAG_SRC.SpotLight) (n fp v : vec3) :
  FRAG_SRC.sl_outerCutOff L < FRAG_SRC.sl_cutOff L ->
  dot (glsl.normalize (sub3 (FRAG_SRC.sl_position L) fp))
      (glsl.normalize (glsl.neg3 (FRAG_SRC.sl_direction L)))
  <= FRAG_SRC.sl_outerCutOff L ->
  FRAG_SRC.CalcSpotLight U L n fp v = mkvec3 0 0 0.
Proof.
  intros Heps Hth. unfold FRAG_SRC.CalcSpotLight. cbv zeta.
  set (theta := dot _ (glsl.normalize (glsl.neg3 _))) in *.
  set (eps := FRAG_SRC.sl_cutOff L - FRAG_SRC.sl_outerCutOff L).
  assert (Hpos : 0 < / eps) by (apply Rinv_0_lt_compat; unfold eps; lra).
  assert (Hq : (theta - FRAG_SRC.sl_outerCutOff L) / eps <= 0.0).
  { unfold Rdiv. assert (theta - FRAG_SRC.sl_outerCutOff L <= 0) by lra. nra. }
  rewrite clamp_below by lra. apply scale3_zero.
Qed.

(** X19.  The spotlight rides on the camera, and its cone is sharp at both
    ends.  With [theta] the cosine of the angle between the camera's
    [front] and the direction from the camera to the fragment: beyond 17.5
    degrees ([theta <= cos 17.5]) the spotlight adds nothing; within 12.5
    degrees ([theta >= cos 12.5]) it adds what a point light at the
    camera, white, with coefficients (1, 0.05, 0.012), would add. *)
Theorem spotlight_cone (g : Globals) (n fp v : vec3) :
  let U := lighting_uniforms g in
  let theta := dot (glsl.normalize (sub3 (pos (cam g)) fp))
                   (glsl.normalize (glsl.neg3 (front (cam g)))) in
  (theta <= cos (radians 17.5) ->
   FRAG_SRC.CalcSpotLight U (FRAG_SRC.spotLight U) n fp v = mkvec3 0 0 0)
  /\ (cos (radians 12.5) <= theta ->
      FRAG_SRC.CalcSpotLight U (FRAG_SRC.spotLight U) n fp v
      = FRAG_SRC.CalcPointLight U
          (FRAG_SRC.mkPointLight (pos (cam g)) 1 0.05 0.012
             (mkvec3 0 0 0) (mkvec3 1 1 1) (mkvec3 1 1 1))
          n fp v).
Proof.
  intros U theta. split; intros Hth.
  - apply spot_outside_outer; [apply spot_cone_order | exact Hth].
  - apply (spot_inside_inner U (FRAG_SRC.spotLight U));
      [apply spot_cone_order | exact Hth].
Qed.

Lemma reachable_front_dot (g : Globals) : reachable g -> dot (front (cam g)) (front (cam g)) = 1.
Proof.
  intros Hg. destruct (reachable_camera_frame g Hg) as (-> & _).
  apply look_direction_unit.
Qed.

Lemma glsl_normalize_unit (x : vec3) : dot x x = 1 -> glsl.normalize x = x.
Proof.
  intros H. unfold glsl.normalize, length. rewrite H, sqrt_1.
  destruct x. cbn [vx vy vz]. f_equal; lra.
Qed.

(** X20.  In every reachable state, a fragment straight ahead of the camera
    (at [pos + k front], [k > 0]) is on the axis of the spotlight
    ([theta = 1]) and receives it in full. *)
Theorem spotlight_lights_what_is_ahead (g : Globals) (k : R) (n v : vec3) :
  reachable g -> 0 < k ->
  let U := lighting_uniforms g in
  let fp := add3 (pos (cam g)) (scale3 (front (cam g)) k) in
  dot (glsl.normalize (sub3 (pos (cam g)) fp))
      (glsl.normalize (glsl.neg3 (front (cam g)))) = 1
  /\ FRAG_SRC.CalcSpotLight U (FRAG_SRC.spotLight U) n fp v
     = FRAG_SRC.CalcPointLight U
         (FRAG_SRC.mkPointLight (pos (cam g)) 1 0.05 0.012
            (mkvec3 0 0 0) (mkvec3 1 1 1) (mkvec3 1 1 1))
         n fp v.
Proof.
  intros Hg Hk U fp.
  pose proof (reachable_front_dot g Hg) as Hf.
  assert (Hneg : dot (glsl.neg3 (front (cam g))) (glsl.neg3 (front (cam g))) = 1).
  { rewrite <- Hf. unfold dot, glsl.neg3. cbn [vx vy vz]. ring. }
  assert (Hd : glsl.normalize (sub3 (pos (cam g)) fp) = glsl.neg3 (front (cam g))).
  { assert (E : sub3 (pos (cam g)) fp = scale3 (glsl.neg3 (front (cam g))) k).
    { unfold fp. destruct (pos (cam g)), (front (cam g)).
      unfold sub3, add3, scale3, glsl.neg3. cbn [vx vy vz]. f_equal; ring. }
    rewrite E. unfold glsl.normalize.
    rewrite length_scale3. unfold length at 1 2 3. rewrite Hneg, sqrt_1.
    rewrite (Rabs_right k) by lra.
    unfold scale3, glsl.neg3. cbn [vx vy vz]. f_equal; field; lra. }
  assert (Hth : dot (glsl.normalize (sub3 (pos (cam g)) fp))
                    (glsl.normalize (glsl.neg3 (front (cam g)))) = 1).
  { rewrite Hd, (glsl_normalize_unit _ Hneg). exact Hneg. }
  split; [exact Hth|].
  apply (spot_inside_inner U (FRAG_SRC.spotLight U)); [apply spot_cone_order|].
  unfold U, lighting_uniforms.
  cbn [FRAG_SRC.spotLight FRAG_SRC.sl_cutOff FRAG_SRC.sl_position FRAG_SRC.sl_direction].
  fold fp. rewrite Hth. apply COS_bound.
Qed.

(** A cube face ten units ahead at startup. *)
Lemma spotlight_lights_what_is_ahead_witness :
  reachable globals_init /\ 0 < 10
  /\ dot (glsl.normalize
            (sub3 (pos (cam globals_init))
                  (add3 (pos (cam globals_init)) (scale3 (front (cam globals_init)) 10))))
         (glsl.normalize (glsl.neg3 (front (cam globals_init)))) = 1.
Proof.
  split; [exact reach_init|]. split; [lra|].
  exact (proj1 (spotlight_lights_what_is_ahead globals_init 10 (mkvec3 0 1 0)
                  (mkvec3 0 0 1) reach_init ltac:(lra))).
Defined.

Lemma le3_scale3 (a : vec3) (k1 k2 : R) :
  nonneg3 a -> k1 <= k2 -> le3 (scale3 a k1) (scale3 a k2).
Proof. unfold nonneg3, le3, scale3. cbn [vx vy vz]. nra. Qed.

(** X21.  A point light gets dimmer with distance: of two fragments seen
    from light [i] in the same direction, with the same normal and view
    vector, the farther one receives at most what the nearer one receives,
    in each colour channel.  The light sits at its orbit position. *)
Theorem point_light_dimmer_when_farther (g : Globals) (i : Z) (n fp1 fp2 v : vec3) :
  (0 <= i < 4)%Z ->
  let U := lighting_uniforms g in
  let L := nth (Z.to_nat i) (FRAG_SRC.pointLights U) FRAG_SRC.no_light in
  let P := ptPos_at (animTime g) i in
  glsl.normalize (sub3 P fp1) = glsl.normalize (sub3 P fp2) ->
  length (sub3 P fp1) <= length (sub3 P fp2) ->
  FRAG_SRC.pl_position L = P
  /\ le3 (FRAG_SRC.CalcPointLight U L n fp2 v) (FRAG_SRC.CalcPointLight U L n fp1 v).
Proof.
  intros Hi U L P Hdir Hdist.
  pose proof (lighting_point_light_ok g i Hi) as Hok. fold U L in Hok.
  assert (HL : FRAG_SRC.pl_position L = P).
  { unfold L, U. now rewrite lighting_point_light. }
  split; [exact HL|].
  destruct Hok as (Ha & Hd & Hs & Hc & Hl & Hq).
  destruct (lighting_material_nonneg g) as (Hmd & Hms). fold U in Hmd, Hms.
  unfold FRAG_SRC.CalcPointLight. cbv zeta. rewrite HL, Hdir.
  apply le3_scale3.
  - apply phong_nonneg; try assumption; [apply Rmax_zero_nonneg | apply pow_nonneg].
  - apply attenuation_decreasing; try assumption.
    split; [apply length_nonneg | exact Hdist].
Qed.

Lemma sub3_sub3_self (p w : vec3) : sub3 p (sub3 p w) = w.
Proof. destruct p, w. unfold sub3. cbn [vx vy vz]. f_equal; ring. Qed.

Lemma length_vertical (h : R) : 0 <= h -> length (mkvec3 0 h 0) = h.
Proof.
  intros Hh. unfold length, dot. cbn [vx vy vz].
  replace (0 * 0 + h * h + 0 * 0) with (h * h) by ring. now apply sqrt_square.
Qed.

(** Two fragments straight below light 0 at startup, one and two units
    away. *)
Lemma point_light_dimmer_when_farther_witness :
  le3 (FRAG_SRC.CalcPointLight (lighting_uniforms globals_init)
         (nth (Z.to_nat 0) (FRAG_SRC.pointLights (lighting_uniforms globals_init))
              FRAG_SRC.no_light)
         (mkvec3 0 1 0) (sub3 (ptPos_at (animTime globals_init) 0) (mkvec3 0 2 0))
         (mkvec3 0 0 1))
      (FRAG_SRC.CalcPointLight (lighting_uniforms globals_init)
         (nth (Z.to_nat 0) (FRAG_SRC.pointLights (lighting_uniforms globals_init))
              FRAG_SRC.no_light)
         (mkvec3 0 1 0) (sub3 (ptPos_at (animTime globals_init) 0) (mkvec3 0 1 0))
         (mkvec3 0 0 1)).
Proof.
  apply (point_light_dimmer_when_farther globals_init 0 (mkvec3 0 1 0)
           (sub3 (ptPos_at (animTime globals_init) 0) (mkvec3 0 1 0))
           (sub3 (ptPos_at (animTime globals_init) 0) (mkvec3 0 2 0))
           (mkvec3 0 0 1)).
  - lia.
  - rewrite !sub3_sub3_self. unfold glsl.normalize.
    rewrite !length_vertical by lra. cbn [vx vy vz]. f_equal; lra.
  - rewrite !sub3_sub3_self, !length_vertical by lra. lra.
Defined.

(** A fragment ten units behind the camera, at startup. *)
Lemma spotlight_cone_witness :
  FRAG_SRC.CalcSpotLight (lighting_uniforms globals_init)
    (FRAG_SRC.spotLight (lighting_uniforms globals_init))
    (mkvec3 0 1 0) (mkvec3 0 8 30) (mkvec3 0 0 1)
  = mkvec3 0 0 0.
Proof.
  apply (proj1 (spotlight_cone globals_init (mkvec3 0 1 0) (mkvec3 0 8 30) (mkvec3 0 0 1))).
  assert (Hcos : 0 < cos (radians 17.5)).
  { pose proof PI_RGT_0. apply cos_gt_0; unfold radians; lra. }
  assert (Hth : dot (glsl.normalize (sub3 (pos (cam globals_init)) (mkvec3 0 8 30)))
                    (glsl.normalize (glsl.neg3 (front (cam globals_init)))) = -1).
  { unfold glsl.normalize, length, dot, sub3, glsl.neg3. cbn [cam globals_init cam_init pos front vx vy vz].
    replace ((0 - 0) * (0 - 0) + (8 - 8) * (8 - 8) + (20 - 30) * (20 - 30))
      with (10 * 10) by ring.
    replace (- 0 * - 0 + - 0 * - 0 + - -1 * - -1) with (1 * 1) by ring.
    rewrite !sqrt_square by lra. field. }
  rewrite Hth. lra.
Defined.

(** ** The projection *)

Lemma half_fov_tangent (zm : R) : 1 <= zm <= 90 -> 0 < tan (radians zm / 2) <= 1.
Proof.
  intros Hz. pose proof PI_RGT_0 as Hpi.
  assert (Hlo : 0 < radians zm / 2) by (unfold radians; nra).
  assert (Hhi : radians zm / 2 <= PI / 4) by (unfold radians; nra).
  split.
  - apply tan_gt_0; lra.
  - rewrite <- tan_PI4. apply tan_incr_1; lra.
Qed.

(** X22.  In every reachable state the projection is well formed: with
    [h = tan(zoom / 2)], [0 < h <= 1] (the zoom clamp keeps the field of view
    between 1 and 90 degrees), so nothing is divided by zero.  A point [z]
    units ahead gets clip [w = z]; a point [zoom / 2] degrees above the view
    axis lands on the top edge ([y = w]); and the near and far planes, 0.1
    and 120 ahead, land on depth [-w] and [+w]. *)
Theorem projection_is_well_formed (g : Globals) (x y z : R) :
  reachable g -> 0 < z ->
  let h := tan (radians (zoom (cam g)) / 2) in
  0 < h <= 1
  /\ qw (mul_vec (proj g) (mkvec4 x y (- z) 1)) = z
  /\ qy (mul_vec (proj g) (mkvec4 x (z * h) (- z) 1)) = z
  /\ qz (mul_vec (proj g) (mkvec4 x y (- 0.1) 1)) = - 0.1
  /\ qz (mul_vec (proj g) (mkvec4 x y (- 120) 1)) = 120.
Proof.
  intros Hg Hz h.
  destruct (reachable_camera_frame g Hg) as (_ & _ & _ & Hzoom).
  pose proof (half_fov_tangent _ Hzoom) as Hh. fold h in Hh.
  split; [exact Hh|].
  unfold proj, perspective. fold h.
  unfold mul_vec, add4, scale4. cbn [mcol0 mcol1 mcol2 mcol3 qx qy qz qw].
  repeat split; first [lra | field; lra].
Qed.

(** A point five units ahead at startup. *)
Lemma projection_is_well_formed_witness :
  reachable globals_init /\ 0 < 5
  /\ qw (mul_vec (proj globals_init) (mkvec4 1 2 (- 5) 1)) = 5.
Proof.
  split; [exact reach_init|]. split; [lra|].
  destruct (projection_is_well_formed globals_init 1 2 5 reach_init ltac:(lra))
    as (_ & H & _).
  exact H.
Defined.

(** ** The cube mesh *)

Lemma verts_length : List.length verts = 216%nat.
Proof. reflexivity. Qed.

(** X23.  The buffer holds 36 vertices, 12 triangles.  For every triangle
    drawn from it, the three vertices carry the same normal attribute; that
    normal is the one the winding gives, [cross(b - a, c - a)], so every
    face is counter-clockwise seen from outside; the vertices lie on the
    face of the cube [[-0.5, 0.5]^3] that the normal points out of. *)
Theorem mesh_is_outward_cube (t : nat) :
  (t < 12)%nat ->
  let a := aPos (3 * t) in
  let b := aPos (3 * t + 1) in
  let c := aPos (3 * t + 2) in
  let n := aNormal (3 * t) in
  aNormal (3 * t + 1) = n /\ aNormal (3 * t + 2) = n
  /\ cross (sub3 b a) (sub3 c a) = n
  /\ dot a n = 0.5 /\ dot b n = 0.5 /\ dot c n = 0.5
  /\ in_unit_cube a /\ in_unit_cube b /\ in_unit_cube c.
Proof.
  intros Ht.
  do 12 (destruct t as [|t]; [mesh_triangle|]).
  lia.
Qed.

(** The second triangle of the top face. *)
Lemma mesh_is_outward_cube_witness :
  cross (sub3 (aPos (3 * 11 + 1)) (aPos (3 * 11)))
        (sub3 (aPos (3 * 11 + 2)) (aPos (3 * 11)))
  = aNormal (3 * 11).
Proof.
  destruct (mesh_is_outward_cube 11 ltac:(lia)) as (_ & _ & H & _). exact H.
Defined.

(** ** The camera does not depend on the animation clock *)

Lemma dispatch_same_controls (g1 g2 : Globals) (e : Event) :
  same_controls g1 g2 -> dt g1 = dt g2 ->
  same_controls (dispatch g1 e) (dispatch g2 e)
  /\ dt (dispatch g1 e) = dt (dispatch g2 e).
Proof.
  destruct g1 as [c1 x1 y1 fm1 d1 lf1 p1 a1 pv1 w1].
  destruct g2 as [c2 x2 y2 fm2 d2 lf2 p2 a2 pv2 w2].
  unfold same_controls. cbn [cam lastX lastY firstMouse lastFrame windowShouldClose dt].
  intros (-> & -> & -> & -> & -> & ->) ->.
  destruct e as [xd yd | xo yo]; cbn [dispatch].
  - unfold mouse_callback. cbn [firstMouse]. destruct fm2; repeat split.
  - repeat split.
Qed.

Lemma pollEvents_same_controls (evs : list Event) :
  forall g1 g2, same_controls g1 g2 -> dt g1 = dt g2 ->
                same_controls (pollEvents g1 evs) (pollEvents g2 evs).
Proof.
  unfold pollEvents. induction evs as [|e evs IH]; intros g1 g2 H Hd; cbn [fold_left].
  - exact H.
  - destruct (dispatch_same_controls g1 g2 e H Hd) as (H' & Hd'). now apply IH.
Qed.

Lemma input_same_controls (g1 g2 : Globals) (t : R) (k : Keys) :
  same_controls g1 g2 ->
  same_controls (processInput (tick g1 t) k) (processInput (tick g2 t) k)
  /\ dt (processInput (tick g1 t) k) = dt (processInput (tick g2 t) k).
Proof.
  destruct g1 as [c1 x1 y1 fm1 d1 lf1 p1 a1 pv1 w1].
  destruct g2 as [c2 x2 y2 fm2 d2 lf2 p2 a2 pv2 w2].
  unfold same_controls. cbn [cam lastX lastY firstMouse lastFrame windowShouldClose].
  intros (-> & -> & -> & -> & -> & ->).
  destruct k as [[] [] [] [] [] []]; destruct pv1, pv2; repeat split.
Qed.

Lemma frame_same_controls (g1 g2 : Globals) (f : Frame) :
  same_controls g1 g2 -> same_controls (frame g1 f) (frame g2 f).
Proof.
  intros H. unfold frame.
  destruct (input_same_controls g1 g2 (now f) (keys f) H) as (H' & Hd).
  now apply pollEvents_same_controls.
Qed.

(** X24.  The camera is decoupled from the animation clock: two runs over
    the same frames, from states that agree on the camera, the cursor
    bookkeeping, [lastFrame] and the close flag, end with the same camera,
    whatever their pause flags, animation times and space-key histories.
    In particular pausing never freezes the camera. *)
Theorem camera_ignores_the_clock (g1 g2 : Globals) (fs : list Frame) :
  same_controls g1 g2 ->
  cam (render_loop g1 fs) = cam (render_loop g2 fs)
  /\ same_controls (render_loop g1 fs) (render_loop g2 fs).
Proof.
  revert g1 g2. induction fs as [|f fs IH]; intros g1 g2 H; cbn [render_loop].
  - split; [apply H | exact H].
  - destruct H as (Hc & Hx & Hy & Hfm & Hlf & Hw). rewrite Hw.
    destruct (windowShouldClose g2) eqn:Hclose.
    + unfold same_controls. rewrite Hclose. repeat split; assumption.
    + apply IH. apply frame_same_controls.
      unfold same_controls. rewrite Hclose. repeat split; assumption.
Qed.

(** From startup, and from startup with the clock paused at 42 seconds:
    W held while the cursor moves. *)
Lemma camera_ignores_the_clock_witness :
  cam (render_loop globals_init
         [mkFrame 0.5 (mkKeys GLFW_RELEASE GLFW_PRESS GLFW_RELEASE GLFW_RELEASE
                              GLFW_RELEASE GLFW_RELEASE)
                  [CursorPos 0 0; CursorPos 15 (-4)]])
  = cam (render_loop (set_clock (set_paused globals_init true) 0 0 42)
           [mkFrame 0.5 (mkKeys GLFW_RELEASE GLFW_PRESS GLFW_RELEASE GLFW_RELEASE
                                GLFW_RELEASE GLFW_RELEASE)
                    [CursorPos 0 0; CursorPos 15 (-4)]]).
Proof.
  apply camera_ignores_the_clock. repeat split.
Defined.
